(** * Remote executor: job lifecycle, command gate and retention sweep

    A shallow embedding of [src/fastapi/remote_executor.py].

    The service keeps one process-wide dictionary [jobs]; every request
    handler and every background task [run()] is a coroutine on a single
    asyncio event loop, so code between two [await]s (or [yield]s) executes
    atomically.  The embedding therefore has one function per atomic
    stretch of the source; the interleaving of those stretches is a list
    of events applied to an explicit [world]. *)

From Stdlib Require Import ZArith NArith List String Ascii Bool Lia.
From stdpp Require Import base option list gmap.
Import ListNotations.

Local Open Scope Z_scope.
Local Open Scope list_scope.

(* ===================================================================== *)
(** ** Text *)
(* ===================================================================== *)

(** A Python [str] is a sequence of Unicode code points. *)
Abbreviation str := (list N).

(** The source only spells ASCII literals; [u"..."] embeds one. *)
Definition of_literal (s : string) : str :=
  map N_of_ascii (list_ascii_of_string s).

Notation "'u' s" := (of_literal s) (at level 1, s at level 0, only parsing).

(** [sep.join(parts)] for the one separator the source uses, [""]. *)
Definition join (parts : list str) : str := concat parts.

(** [str.isspace] on one code point, which is also what [\s] tests in a
    [str] pattern and what [str.strip()] removes. *)
Definition isspace (c : N) : bool :=
  ((9 <=? c) && (c <=? 13) || (28 <=? c) && (c <=? 32)
   || (c =? 133) || (c =? 160) || (c =? 5760)
   || (8192 <=? c) && (c <=? 8202)
   || (c =? 8232) || (c =? 8233) || (c =? 8239) || (c =? 8287)
   || (c =? 12288))%N.

Definition SPACE : N := 32.

(** [str.strip()]: drop the leading and the trailing white space. *)
Fixpoint lstrip (s : str) : str :=
  match s with
  | c :: t => if isspace c then lstrip t else s
  | [] => []
  end.

Definition rstrip (s : str) : str := rev (lstrip (rev s)).

Definition strip (s : str) : str := rstrip (lstrip s).

(** [re.sub(r"\s+", " ", s)]: every maximal run of white space becomes a
    single space.  [in_run] says that the previous code point belonged to
    the run being replaced. *)
Fixpoint sub_spaces (in_run : bool) (s : str) : str :=
  match s with
  | [] => []
  | c :: t =>
      if isspace c
      then (if in_run then sub_spaces true t else SPACE :: sub_spaces true t)
      else c :: sub_spaces false t
  end.

(* ===================================================================== *)
(** ** Regular expressions, as far as [BLOCKED_PATTERNS] needs them *)
(* ===================================================================== *)

Module Re.

(** The ASCII letter a code point lower-cases to, if there is one:
    besides the 52 ASCII letters these are U+0130 (to [i]) and the
    Kelvin sign U+212A (to [k]). *)
Definition lower_ascii (x : N) : option N :=
  (if (97 <=? x) && (x <=? 122) then Some x
   else if (65 <=? x) && (x <=? 90) then Some (x + 32)
   else if x =? 304 then Some 105
   else if x =? 8490 then Some 107
   else None)%N.

(** Lower-case code points that [re.I] additionally equates with an
    ASCII letter although they are their own lower case: dotless i
    with [i], long s with [s]. *)
Definition ignorecase_fixes (c : N) : list N :=
  (if c =? 105 then [305] else if c =? 115 then [383] else [])%N.

Inductive charset : Type :=
| LITERAL (c : N)                (* a code point without case *)
| LITERAL_IGNORE (c : N)         (* an ASCII letter, given in lower case *)
| RANGE_IGNORE (lo hi : N)       (* [lo-hi] of ASCII lower-case letters *)
| CATEGORY_SPACE.                (* \s *)

Definition in_range (lo hi x : N) : bool := ((lo <=? x) && (x <=? hi))%N.

Definition charset_match (cs : charset) (x : N) : bool :=
  match cs with
  | LITERAL c => (x =? c)%N
  | LITERAL_IGNORE c =>
      match lower_ascii x with
      | Some l => (l =? c)%N
      | None => existsb (N.eqb x) (ignorecase_fixes c)
      end
  | RANGE_IGNORE lo hi =>
      match lower_ascii x with
      | Some l => in_range lo hi l
      | None =>
          existsb (fun c => in_range lo hi c
                            && existsb (N.eqb x) (ignorecase_fixes c))
                  [105; 115]%N
      end
  | CATEGORY_SPACE => isspace x
  end.

Inductive regex : Type :=
| EMPTY
| AT_BEGINNING                   (* ^ *)
| AT_END                         (* $ *)
| IN (cs : charset)
| SEQ (r1 r2 : regex)
| OPTIONAL (r : regex)           (* r? *)
| MAX_REPEAT (r : regex).        (* r* *)

(** [r+] *)
Definition MIN_ONE (r : regex) : regex := SEQ r (MAX_REPEAT r).

Fixpoint literal (s : list N) : regex :=
  match s with
  | [] => EMPTY
  | c :: t => SEQ (IN (LITERAL_IGNORE c)) (literal t)
  end.

(** Backtracking matcher in continuation-passing style: [pos] is the
    offset of [s] in the subject, [k] what has to match afterwards.
    A repetition only iterates when its body consumed something, as
    the engine does. *)
Fixpoint matches (r : regex) (pos : nat) (s : str)
         (k : nat -> str -> bool) {struct r} : bool :=
  match r with
  | EMPTY => k pos s
  | AT_BEGINNING => if Nat.eqb pos 0 then k pos s else false
  | AT_END =>
      match s with
      | [] => k pos s
      | [c] => if (c =? 10)%N then k pos s else false
      | _ => false
      end
  | IN cs =>
      match s with
      | c :: t => if charset_match cs c then k (S pos) t else false
      | [] => false
      end
  | SEQ r1 r2 => matches r1 pos s (fun p s' => matches r2 p s' k)
  | OPTIONAL r1 => matches r1 pos s k || k pos s
  | MAX_REPEAT r1 =>
      (fix loop (fuel : nat) (pos : nat) (s : str) {struct fuel} : bool :=
         matches r1 pos s
           (fun p s' =>
              if Nat.ltb (length s') (length s)
              then match fuel with
                   | O => false
                   | S fuel' => loop fuel' p s'
                   end
              else false)
         || k pos s) (length s) pos s
  end.

(** [Pattern.search]: is there a start offset at which the pattern
    matches?  (Only the truth value of the result is used.) *)
Fixpoint search_from (r : regex) (pos : nat) (s : str) : bool :=
  matches r pos s (fun _ _ => true)
  || match s with
     | [] => false
     | _ :: t => search_from r (S pos) t
     end.

Record Pattern : Type := compile { pattern : str; code : regex }.

Definition search (p : Pattern) (s : str) : bool := search_from (code p) 0 s.

End Re.

(* ===================================================================== *)
(** ** Command gate *)
(* ===================================================================== *)

Import Re.

Definition sudo_prefix : regex :=
  OPTIONAL (SEQ (literal (u"sudo")) (MIN_ONE (IN CATEGORY_SPACE))).

Definition letters : regex := MAX_REPEAT (IN (RANGE_IGNORE 97 122)).

(** A flag word [-...x...] for the letter [x]. *)
Definition flag_with (x : N) : regex :=
  SEQ (IN (LITERAL 45)) (SEQ letters (SEQ (IN (LITERAL_IGNORE x)) letters)).

Definition BLOCKED_PATTERNS : list Pattern :=
  [ compile (u"^(sudo\s+)?rm\s+(-[a-z]*f[a-z]*\s+)?/\s*$")
      (SEQ AT_BEGINNING (SEQ sudo_prefix (SEQ (literal (u"rm"))
        (SEQ (MIN_ONE (IN CATEGORY_SPACE))
          (SEQ (OPTIONAL (SEQ (flag_with 102) (MIN_ONE (IN CATEGORY_SPACE))))
            (SEQ (IN (LITERAL 47))
              (SEQ (MAX_REPEAT (IN CATEGORY_SPACE)) AT_END)))))));
    compile (u"^(sudo\s+)?ls\s+(-[a-z]*r[a-z]*)")
      (SEQ AT_BEGINNING (SEQ sudo_prefix (SEQ (literal (u"ls"))
        (SEQ (MIN_ONE (IN CATEGORY_SPACE)) (flag_with 114))))) ].

Definition normalize (command : str) : str :=
  sub_spaces false (strip command).

Definition blocked_reason (p : Pattern) : str :=
  u"Blocked: command matches dangerous pattern (" ++ pattern p ++ u")".

(** The [for pattern in ...: if pattern.search(cmd): return ...] loop. *)
Fixpoint first_blocking (patterns : list Pattern) (cmd : str) : option str :=
  match patterns with
  | [] => None
  | p :: rest =>
      if search p cmd then Some (blocked_reason p)
      else first_blocking rest cmd
  end.

Definition is_blocked_command (command : str) : option str :=
  first_blocking BLOCKED_PATTERNS (normalize command).

(* ===================================================================== *)
(** ** Data model *)
(* ===================================================================== *)

(** [time.time()] readings, in seconds. *)
Abbreviation time := Z.

Definition JOB_TTL_SECONDS : Z := 3600.

(** Handle of a spawned child ([asyncio.subprocess.Process]). *)
Abbreviation proc := nat.

(** Address of a Python object on the heap. *)
Abbreviation addr := nat.

(** The values the ["status"] key takes. *)
Inductive job_status : Type :=
| StRunning | StFinished | StError | StCancelled | StTimeout.

Definition status_str (s : job_status) : str :=
  match s with
  | StRunning => u"running"
  | StFinished => u"finished"
  | StError => u"error"
  | StCancelled => u"cancelled"
  | StTimeout => u"timeout"
  end.

Definition status_eqb (s1 s2 : job_status) : bool :=
  match s1, s2 with
  | StRunning, StRunning | StFinished, StFinished | StError, StError
  | StCancelled, StCancelled | StTimeout, StTimeout => true
  | _, _ => false
  end.

(** How the child ended, and the [returncode] Python derives from it:
    the exit code, or minus the number of the signal that killed it. *)
Inductive wait_status : Type :=
| WEXITED (code : N)
| WSIGNALED (sig : N).

Definition returncode_of (ws : wait_status) : Z :=
  match ws with
  | WEXITED code => Z.of_N code
  | WSIGNALED sig => - Z.of_N sig
  end.

Record CommandRequest : Type := {
  command : str;
  cwd : option str;
  timeout : Z;
  env : option (list (str * str));
}.

(** A job dictionary.  The keys written at creation are plain fields,
    the keys added by a later [update] are options ([None]: key absent). *)
Module Job.

Record t : Type := mk {
  status : job_status;
  command : str;
  cwd : option str;
  created_at : time;
  output_lines : list str;
  process : option proc;
  stdout : option str;
  stderr : option str;
  returncode : option Z;
  error : option str;
  finished_at : option time;
}.

(** The dictionary literal of [exec_command]. *)
Definition create (cmd : str) (dir : option str) (now : time) : t :=
  mk StRunning cmd dir now [] None None None None None None.

(** [job["process"] = proc] *)
Definition set_process (p : proc) (j : t) : t :=
  mk (status j) (command j) (cwd j) (created_at j) (output_lines j)
     (Some p) (stdout j) (stderr j) (returncode j) (error j) (finished_at j).

(** [output_lines.append(line)] *)
Definition append_line (line : str) (j : t) : t :=
  mk (status j) (command j) (cwd j) (created_at j) (output_lines j ++ [line])
     (process j) (stdout j) (stderr j) (returncode j) (error j) (finished_at j).

(** The [update] of the timeout branch. *)
Definition update_timeout (out : str) (now : time) (j : t) : t :=
  mk StTimeout (command j) (cwd j) (created_at j) (output_lines j)
     (process j) (Some out) (Some []) (Some (-1)) (error j) (Some now).

(** The [update] after a normal exit. *)
Definition update_finished (out : str) (rc : Z) (now : time) (j : t) : t :=
  mk StFinished (command j) (cwd j) (created_at j) (output_lines j)
     (process j) (Some out) (Some []) (Some rc) (error j) (Some now).

(** The [update] of the exception handler. *)
Definition update_error (e : str) (now : time) (j : t) : t :=
  mk StError (command j) (cwd j) (created_at j) (output_lines j)
     (process j) (stdout j) (stderr j) (returncode j) (Some e) (Some now).

(** The [update] of [cancel_job]. *)
Definition update_cancelled (now : time) (j : t) : t :=
  mk StCancelled (command j) (cwd j) (created_at j) (output_lines j)
     (process j) (stdout j) (stderr j) (returncode j) (error j) (Some now).

End Job.

(** Where a [run()] coroutine is suspended. *)
Inductive run_pc : Type :=
| AwaitSpawn                    (* at create_subprocess_shell *)
| AwaitReadline (p : proc)      (* at readline, under wait_for *)
| AwaitReap (p : proc)          (* at proc.wait() of the timeout branch *)
| AwaitExit (p : proc)          (* at proc.wait() after end of stream *)
| Returned                      (* run() returned *)
| Raised.                       (* an exception left run() *)

(** A [run()] task with what its closure captured: the request, the job
    id, and the list object [output_lines], which is the very list stored
    under the job dictionary's ["output_lines"] key, identified here by
    the address of that dictionary. *)
Record task : Type := {
  t_req : CommandRequest;
  t_job_id : str;
  t_output_lines : addr;
  t_pc : run_pc;
}.

Definition at_pc (pc : run_pc) (t : task) : task :=
  {| t_req := t_req t; t_job_id := t_job_id t;
     t_output_lines := t_output_lines t; t_pc := pc |}.

Record world : Type := {
  heap : list Job.t;       (* every job dictionary allocated so far *)
  jobs : gmap str addr;    (* the global [jobs]: id to dictionary object *)
  tasks : list task;       (* the run() tasks, in creation order *)
  signals : list proc;     (* the children on which kill() was called *)
}.

Definition empty_world : world :=
  {| heap := []; jobs := ∅; tasks := []; signals := [] |}.

Definition with_heap (h : list Job.t) (w : world) : world :=
  {| heap := h; jobs := jobs w; tasks := tasks w; signals := signals w |}.

Definition with_jobs (js : gmap str addr) (w : world) : world :=
  {| heap := heap w; jobs := js; tasks := tasks w; signals := signals w |}.

Definition with_tasks (ts : list task) (w : world) : world :=
  {| heap := heap w; jobs := jobs w; tasks := ts; signals := signals w |}.

Definition with_signals (sg : list proc) (w : world) : world :=
  {| heap := heap w; jobs := jobs w; tasks := tasks w; signals := sg |}.

(** [jobs.get(job_id)]: the dictionary object and its present contents. *)
Definition get_job (w : world) (job_id : str) : option (addr * Job.t) :=
  match jobs w !! job_id with
  | Some a =>
      match heap w !! a with
      | Some j => Some (a, j)
      | None => None
      end
  | None => None
  end.

(** Mutation of the dictionary object at [a]. *)
Definition mutate (a : addr) (f : Job.t -> Job.t) (w : world) : world :=
  match heap w !! a with
  | Some j => with_heap (<[a := f j]> (heap w)) w
  | None => w
  end.

(** What a handler answers: a body, or a raised [HTTPException]. *)
Inductive response (A : Type) : Type :=
| Ok (body : A)
| HTTPException (status_code : nat) (detail : str).
Arguments Ok {A} body.
Arguments HTTPException {A} status_code detail.

(* ===================================================================== *)
(** ** Retention sweep *)
(* ===================================================================== *)

Definition is_terminal (s : job_status) : bool :=
  existsb (status_eqb s) [StFinished; StError; StCancelled; StTimeout].

(** The filter of the list comprehension in [purge_old_jobs]. *)
Definition expired (now : time) (j : Job.t) : bool :=
  is_terminal (Job.status j)
  && (now - default now (Job.finished_at j) >? JOB_TTL_SECONDS).

Definition expired_ids (now : time) (w : world) : list str :=
  omap (fun '(jid, a) =>
          match heap w !! a with
          | Some j => if expired now j then Some jid else None
          | None => None
          end)
       (map_to_list (jobs w)).

(** [purge_old_jobs]; [now] is its clock reading.  The [del] never
    raises: the ids deleted are keys of [jobs], each met once. *)
Definition purge_old_jobs (now : time) (w : world) : world :=
  with_jobs (foldl (fun js jid => delete jid js) (jobs w) (expired_ids now w))
            w.

(* ===================================================================== *)
(** ** Request handlers *)
(* ===================================================================== *)

(** [exec_command]; [job_id] is the value drawn by [uuid.uuid4()], [now]
    and [now'] are the two clock readings (sweep, [created_at]). *)
Definition exec_command (req : CommandRequest) (job_id : str)
           (now now' : time) (w : world) : world * response str :=
  let w := purge_old_jobs now w in
  match is_blocked_command (command req) with
  | Some blocked => (w, HTTPException 400 blocked)
  | None =>
      let a := length (heap w) in
      ({| heap := heap w ++ [Job.create (command req) (cwd req) now'];
          jobs := <[job_id := a]> (jobs w);
          tasks := tasks w ++ [{| t_req := req; t_job_id := job_id;
                                  t_output_lines := a; t_pc := AwaitSpawn |}];
          signals := signals w |},
       Ok job_id)
  end.

(** [cancel_job]; [now] is the clock reading of the [update].  Whether
    [proc.kill()] raises [ProcessLookupError] makes no difference, the
    source passes over it. *)
Definition cancel_job (job_id : str) (now : time) (w : world)
  : world * response str :=
  match get_job w job_id with
  | None => (w, HTTPException 404 (u"Job not found"))
  | Some (a, job) =>
      if negb (status_eqb (Job.status job) StRunning)
      then (w, Ok (u"Job is already " ++ status_str (Job.status job)))
      else
        let w :=
          match Job.process job with
          | Some p => with_signals (signals w ++ [p]) w
          | None => w
          end in
        (mutate a (Job.update_cancelled now) w, Ok (u"Job cancelled"))
  end.

Record StatusBody : Type := {
  sb_job_id : str;
  sb_status : str;
  sb_command : str;
}.

Definition status (job_id : str) (w : world) : response StatusBody :=
  match get_job w job_id with
  | None => HTTPException 404 (u"Job not found")
  | Some (_, job) =>
      Ok {| sb_job_id := job_id;
            sb_status := status_str (Job.status job);
            sb_command := Job.command job |}
  end.

Record ResultBody : Type := {
  rb_job_id : str;
  rb_status : str;
  rb_stdout : str;
  rb_stderr : str;
  rb_returncode : option Z;
  rb_error : option str;
}.

Definition result (job_id : str) (w : world) : response ResultBody :=
  match get_job w job_id with
  | None => HTTPException 404 (u"Job not found")
  | Some (_, job) =>
      Ok {| rb_job_id := job_id;
            rb_status := status_str (Job.status job);
            rb_stdout := default [] (Job.stdout job);
            rb_stderr := default [] (Job.stderr job);
            rb_returncode := Job.returncode job;
            rb_error := Job.error job |}
  end.

Record JobSummary : Type := {
  js_job_id : str;
  js_status : str;
  js_command : str;
  js_created_at : time;
}.

Definition summary (jid : str) (job : Job.t) : JobSummary :=
  {| js_job_id := jid;
     js_status := status_str (Job.status job);
     js_command := Job.command job;
     js_created_at := Job.created_at job |}.

(** [list_jobs].  A [gmap] does not keep the insertion order of the
    Python dictionary, so the order of the summaries is not that of the
    source; nothing below depends on it. *)
Definition list_jobs (now : time) (w : world) : world * list JobSummary :=
  let w := purge_old_jobs now w in
  (w,
   omap (fun '(jid, a) =>
           match heap w !! a with
           | Some job => Some (summary jid job)
           | None => None
           end)
        (map_to_list (jobs w))).

(* ===================================================================== *)
(** ** The background task [run()] *)
(* ===================================================================== *)

(** What the awaited call of a suspended [run()] turns out to do. *)
Inductive os_event : Type :=
| Spawned (p : proc)          (* create_subprocess_shell returned [p] *)
| Readline (line : str)       (* readline returned; [[]] at end of stream *)
| TimedOut (kill_error : option str)
                              (* wait_for gave up on read_stream() after
                                 req.timeout seconds, which the model does
                                 not count; what proc.kill() raised, if it
                                 did *)
| Exited (ws : wait_status)   (* proc.wait() returned *)
| Raise (e : str).            (* the call raised an Exception, str(e) = [e] *)

(** [jobs[job_id].update(...)] and [jobs[job_id][...] = ...]: [None] when
    the subscript raises [KeyError]. *)
Definition update_job (job_id : str) (f : Job.t -> Job.t) (w : world)
  : option world :=
  match get_job w job_id with
  | Some (a, _) => Some (mutate a f w)
  | None => None
  end.

(** The [except Exception as e] handler.  When the job is no longer in
    [jobs] the handler's own subscript raises and [run()] ends with that
    exception. *)
Definition on_exception (t : task) (e : str) (now : time) (w : world)
  : world * run_pc :=
  match update_job (t_job_id t) (Job.update_error e now) w with
  | Some w' => (w', Returned)
  | None => (w, Raised)
  end.

(** A [KeyError] from a subscript inside the [try]: it reaches the handler
    above, whose subscript fails in the same way. *)
Definition or_key_error (r : option world) (pc : run_pc) (w : world)
  : world * run_pc :=
  match r with
  | Some w' => (w', pc)
  | None => (w, Raised)
  end.

(** ["".join(output_lines)] through the closure's reference. *)
Definition captured (t : task) (w : world) : str :=
  match heap w !! t_output_lines t with
  | Some j => join (Job.output_lines j)
  | None => []
  end.

(** One atomic stretch of [run()]: from the resumption of the awaited
    call with outcome [ev] to the next suspension, or to the end. *)
Definition resume (t : task) (ev : os_event) (now : time) (w : world)
  : world * run_pc :=
  match t_pc t, ev with
  | AwaitSpawn, Spawned p =>
      or_key_error (update_job (t_job_id t) (Job.set_process p) w)
                   (AwaitReadline p) w
  | AwaitReadline p, Readline line =>
      match line with
      | [] => (w, AwaitExit p)
      | _ => (mutate (t_output_lines t) (Job.append_line line) w,
              AwaitReadline p)
      end
  | AwaitReadline p, TimedOut kill_error =>
      let w := with_signals (signals w ++ [p]) w in
      match kill_error with
      | None => (w, AwaitReap p)
      | Some e => on_exception t e now w
      end
  | AwaitReap p, Exited _ =>
      or_key_error
        (update_job (t_job_id t) (Job.update_timeout (captured t w) now) w)
        Returned w
  | AwaitExit p, Exited ws =>
      or_key_error
        (update_job (t_job_id t)
           (Job.update_finished (captured t w) (returncode_of ws) now) w)
        Returned w
  | (AwaitSpawn | AwaitReadline _ | AwaitReap _ | AwaitExit _), Raise e =>
      on_exception t e now w
  | pc, _ => (w, pc)
  end.

(** The same for the task numbered [tid]. *)
Definition run_step (tid : nat) (ev : os_event) (now : time) (w : world)
  : world :=
  match tasks w !! tid with
  | Some t =>
      let '(w', pc) := resume t ev now w in
      with_tasks (<[tid := at_pc pc t]> (tasks w')) w'
  | None => w
  end.

(* ===================================================================== *)
(** ** The event loop *)
(* ===================================================================== *)

(** The activations that change the world. *)
Inductive event : Type :=
| Exec (req : CommandRequest) (job_id : str) (now now' : time)
| Cancel (job_id : str) (now : time)
| ListJobs (now : time)
| Resume (tid : nat) (ev : os_event) (now : time).

Definition apply_event (w : world) (e : event) : world :=
  match e with
  | Exec req job_id now now' => fst (exec_command req job_id now now' w)
  | Cancel job_id now => fst (cancel_job job_id now w)
  | ListJobs now => fst (list_jobs now w)
  | Resume tid ev now => run_step tid ev now w
  end.

Definition run_events (w : world) (es : list event) : world :=
  foldl apply_event w es.

(** The worlds the service can be in. *)
Definition reachable (w : world) : Prop :=
  exists es, w = run_events empty_world es.

(* ===================================================================== *)
(** ** Output stream *)
(* ===================================================================== *)

(** Where an [event_generator()] is suspended.  [job] and [lines] of the
    source are references to the job dictionary at [a]. *)
Inductive gen_pc : Type :=
| GenStart                          (* not started yet; idx = 0 *)
| GenLine (a : addr) (idx : nat)    (* at the yield of lines[idx] *)
| GenSleep (idx : nat)              (* at asyncio.sleep *)
| GenDone                           (* at the yield of the done marker *)
| GenClosed.

Inductive gen_out : Type :=
| Yield (chunk : str)
| Sleeping
| StopAsyncIteration.

Definition NL : str := [10%N].

Definition data_chunk (line : str) : str := u"data: " ++ line ++ NL.

Definition done_chunk (s : job_status) : str :=
  u"event: done" ++ NL ++ u"data: " ++ status_str s ++ NL ++ NL.

(** From the test of the inner [while] on. *)
Definition gen_lines (a : addr) (idx : nat) (w : world) : gen_out * gen_pc :=
  match heap w !! a with
  | Some job =>
      match Job.output_lines job !! idx with
      | Some line => (Yield (data_chunk line), GenLine a idx)
      | None =>
          if negb (status_eqb (Job.status job) StRunning)
          then (Yield (done_chunk (Job.status job)), GenDone)
          else (Sleeping, GenSleep idx)
      end
  | None => (StopAsyncIteration, GenClosed)
  end.

(** From the top of the outer [while] on. *)
Definition gen_poll (job_id : str) (idx : nat) (w : world)
  : gen_out * gen_pc :=
  match get_job w job_id with
  | Some (a, _) => gen_lines a idx w
  | None => (StopAsyncIteration, GenClosed)
  end.

(** One atomic stretch of the generator in the world [w] it wakes up in. *)
Definition gen_resume (job_id : str) (g : gen_pc) (w : world)
  : gen_out * gen_pc :=
  match g with
  | GenStart => gen_poll job_id 0 w
  | GenLine a idx => gen_lines a (S idx) w
  | GenSleep idx => gen_poll job_id idx w
  | GenDone => (StopAsyncIteration, GenClosed)
  | GenClosed => (StopAsyncIteration, GenClosed)
  end.

Definition stream_output (job_id : str) (w : world) : response gen_pc :=
  match get_job w job_id with
  | None => HTTPException 404 (u"Job not found")
  | Some _ => Ok GenStart
  end.

(** The chunks a generator delivers while the world stands still, up to
    its next sleep or its end, and where it is then. *)
Fixpoint gen_drain (fuel : nat) (job_id : str) (g : gen_pc) (w : world)
  : list str * gen_pc :=
  match fuel with
  | O => ([], g)
  | S fuel' =>
      match gen_resume job_id g w with
      | (Yield chunk, g') =>
          let '(chunks, g'') := gen_drain fuel' job_id g' w in
          (chunk :: chunks, g'')
      | (Sleeping, g') => ([], g')
      | (StopAsyncIteration, g') => ([], g')
      end
  end.

(** The generator resumed once in each of the successive worlds [ws]:
    the chunks it yields and where it is afterwards. *)
Fixpoint gen_run (job_id : str) (g : gen_pc) (ws : list world)
  : list str * gen_pc :=
  match ws with
  | [] => ([], g)
  | w :: ws' =>
      let '(out, g') := gen_resume job_id g w in
      let '(chunks, g'') := gen_run job_id g' ws' in
      (match out with
       | Yield chunk => chunk :: chunks
       | _ => chunks
       end, g'')
  end.

(** The output of one activation followed by the rest of the run. *)
Definition gen_then (job_id : str) (r : gen_out * gen_pc) (ws : list world)
  : list str * gen_pc :=
  let '(out, g') := r in
  let '(chunks, g'') := gen_run job_id g' ws in
  (match out with
   | Yield chunk => chunk :: chunks
   | _ => chunks
   end, g'').

(* ===================================================================== *)
(** ** Reference definitions and invariants *)
(* ===================================================================== *)

(** *** Words of a command

    What "trimmed, with every run of white space collapsed" means,
    stated without reference to [strip] and [re.sub]. *)

(** Put [c] in front of the first word. *)
Definition cons_head (c : N) (ws : list str) : list str :=
  match ws with
  | [] => [[c]]
  | w :: ws' => (c :: w) :: ws'
  end.

(** The maximal runs of code points that are not white space. *)
Fixpoint words (s : str) : list str :=
  match s with
  | [] => []
  | c :: t =>
      if isspace c then words t
      else match t with
           | [] => [[c]]
           | c' :: _ => if isspace c' then [c] :: words t
                        else cons_head c (words t)
           end
  end.

(** The words with one space between neighbours. *)
Fixpoint unwords (ws : list str) : str :=
  match ws with
  | [] => []
  | w :: ws' =>
      w ++ match ws' with
           | [] => []
           | _ :: _ => SPACE :: unwords ws'
           end
  end.

(** *** Auxiliary notions for the proofs *)

(** No white space at the end. *)
Definition ends_solid (s : str) : Prop :=
  s = [] \/ exists s' c, s = s' ++ [c] /\ isspace c = false.

(** The space that [sub_spaces] puts first for a run at the start of [t]. *)
Definition lead (in_run : bool) (t : str) : str :=
  match t with
  | c :: _ => if isspace c && negb in_run then [SPACE] else []
  | [] => []
  end.

(** Every registry entry points at an allocated dictionary. *)
Definition wf (w : world) : Prop :=
  forall jid a, jobs w !! jid = Some a -> (a < length (heap w))%nat.

(** What follows the last line: the done marker and the end for a job
    that is no longer running, a sleep with the cursor kept otherwise. *)
Definition after_lines (j : Job.t) (cursor : nat) : list str * gen_pc :=
  if negb (status_eqb (Job.status j) StRunning)
  then ([done_chunk (Job.status j)], GenClosed)
  else ([], GenSleep cursor).

(** The index of the next line a suspended generator will look at. *)
Definition cursor (g : gen_pc) : option nat :=
  match g with
  | GenStart => Some 0%nat
  | GenLine _ idx => Some (S idx)
  | GenSleep idx => Some idx
  | GenDone | GenClosed => None
  end.

(** In world [w] the dictionary at [a] holds some first lines of [L],
    and [job_id] is bound to it or to nothing. *)
Definition follows (a : addr) (L : list str) (job_id : str) (w : world)
  : Prop :=
  (exists j, heap w !! a = Some j /\ Job.output_lines j `prefix_of` L)
  /\ (jobs w !! job_id = Some a \/ jobs w !! job_id = None).

(** A generator inside its inner loop holds the dictionary at [a]. *)
Definition holds (a : addr) (g : gen_pc) : Prop :=
  match g with
  | GenLine b _ => b = a
  | _ => True
  end.

(** The dictionary at [a] was [j] in one of the worlds [ws]. *)
Definition seen_in (a : addr) (ws : list world) (j : Job.t) : Prop :=
  exists w, w ∈ ws /\ heap w !! a = Some j.

(** What a run that started with the cursor at [c] has delivered, as a
    subscriber reads it off the wire: [n] lines of [L] from [c] on, each
    as the text ["data: "], the line, a newline; and then either nothing
    more yet (or the silent end), or the text ["event: done"], newline,
    ["data: "], the status, two newlines, where the status is the one,
    other than [running], of a job state [j] that was [seen] and all of
    whose lines have been delivered. *)
Definition delivered (seen : Job.t -> Prop) (c : nat) (L : list str)
           (chunks : list str) (g : gen_pc) : Prop :=
  exists n : nat,
    (n = 0 \/ c + n <= length L)%nat
    /\ ((chunks = map (fun line => u"data: " ++ line ++ NL)
                       (take n (drop c L))
         /\ (cursor g = Some (c + n)%nat \/ g = GenClosed))
        \/ (exists j,
              seen j
              /\ Job.status j <> StRunning
              /\ (length (Job.output_lines j) <= c + n)%nat
              /\ chunks = map (fun line => u"data: " ++ line ++ NL)
                               (take n (drop c L))
                            ++ [u"event: done" ++ NL ++ u"data: "
                                  ++ status_str (Job.status j) ++ NL ++ NL]
              /\ (g = GenDone \/ g = GenClosed))).

(** [j'] is a later state of the dictionary [j]: a status other than
    [running] has not gone back to [running], and the lines of [j] are
    the first lines of [j']. *)
Definition later (j j' : Job.t) : Prop :=
  (Job.status j <> StRunning -> Job.status j' <> StRunning)
  /\ Job.output_lines j `prefix_of` Job.output_lines j'.

Definition heap_later (h h' : list Job.t) : Prop :=
  forall a j, h !! a = Some j -> exists j', h' !! a = Some j' /\ later j j'.

(** *** Observations and scenarios *)

Definition slow_request : CommandRequest :=
  {| command := u"sleep 30; echo done"; cwd := None;
     timeout := 1200; env := None |}.

Definition job1 : str := u"job-1".

Definition status_of (w : world) (job_id : str) : option job_status :=
  Job.status <$> (snd <$> get_job w job_id).

Definition output_of (w : world) (job_id : str) : option (list str) :=
  Job.output_lines <$> (snd <$> get_job w job_id).

Definition chatty_request : CommandRequest :=
  {| command := u"echo partial; sleep 30"; cwd := None;
     timeout := 1200; env := None |}.

Definition quick_request : CommandRequest :=
  {| command := u"echo hello"; cwd := None; timeout := 1200; env := None |}.

Definition rm_root : CommandRequest :=
  {| command := u"sudo rm -rf /"; cwd := None; timeout := 1200; env := None |}.

Definition job2 : str := u"job-2".

(** [echo hello] ran to its end at time 1. *)
Definition w_done : world :=
  run_events empty_world
    [Exec quick_request job1 0 0; Resume 0 (Spawned 1%nat) 0;
     Resume 0 (Readline (u"hello" ++ NL)) 1; Resume 0 (Readline []) 1;
     Resume 0 (Exited (WEXITED 0)) 1].

Definition j_done : Job.t :=
  Job.mk StFinished (u"echo hello") None 0 [u"hello" ++ NL] (Some 1%nat)
         (Some (u"hello" ++ NL)) (Some []) (Some 0) None (Some 1).

(** A job just submitted: running, no child yet. *)
Definition w_new : world :=
  run_events empty_world [Exec slow_request job1 0 0].

Definition j_new : Job.t :=
  Job.mk StRunning (u"sleep 30; echo done") None 0 [] None
         None None None None None.

(** A job that has printed one line and is being read. *)
Definition w_reading : world :=
  run_events empty_world
    [Exec chatty_request job1 0 0; Resume 0 (Spawned 1%nat) 1;
     Resume 0 (Readline (u"partial" ++ NL)) 2].

Definition j_reading : Job.t :=
  Job.mk StRunning (u"echo partial; sleep 30") None 0 [u"partial" ++ NL]
         (Some 1%nat) None None None None None.

Definition t_reading : task :=
  {| t_req := chatty_request; t_job_id := job1; t_output_lines := 0%nat;
     t_pc := AwaitReadline 1%nat |}.




(** *** Notions for the further properties *)

(** The ASCII lower case of a code point. *)
Definition ascii_lower (x : N) : N :=
  (if (65 <=? x) && (x <=? 90) then x + 32 else x)%N.

Definition ascii_letter (x : N) : bool :=
  ((65 <=? x) && (x <=? 90) || (97 <=? x) && (x <=? 122))%N.

(** The exact literals of [r] are not ASCII letters. *)
Fixpoint caseless (r : regex) : bool :=
  match r with
  | IN (LITERAL c) => negb (ascii_letter c)
  | SEQ r1 r2 => caseless r1 && caseless r2
  | OPTIONAL r1 | MAX_REPEAT r1 => caseless r1
  | _ => true
  end.

(** The loop of [matches] for a repetition, for a matcher [m] of the
    body and a continuation [k]. *)
Section StarLoop.

Variable m : nat -> str -> (nat -> str -> bool) -> bool.
Variable k : nat -> str -> bool.

Fixpoint star_loop (fuel : nat) (pos : nat) (s : str) : bool :=
  m pos s
    (fun p s' =>
       if Nat.ltb (length s') (length s)
       then match fuel with
            | O => false
            | S fuel' => star_loop fuel' p s'
            end
       else false)
  || k pos s.

End StarLoop.

(** A word: not empty, no white space in it. *)
Definition solid_word (w : str) : Prop :=
  w <> [] /\ forallb (fun c => negb (isspace c)) w = true.

Record HealthBody : Type := {
  hb_status : str;
  hb_uptime : time;
  hb_jobs_count : nat;
}.

(** [health]; [now] is its clock reading. *)
Definition health (now : time) (w : world) : HealthBody :=
  {| hb_status := u"ok"; hb_uptime := now; hb_jobs_count := size (jobs w) |}.

(** The outcomes the call awaited at [pc] can have. *)
Definition enabled (pc : run_pc) (ev : os_event) : bool :=
  match pc, ev with
  | AwaitSpawn, (Spawned _ | Raise _) => true
  | AwaitReadline _, (Readline _ | TimedOut _ | Raise _) => true
  | (AwaitReap _ | AwaitExit _), (Exited _ | Raise _) => true
  | _, _ => false
  end.

(** The task is suspended at an [await]. *)
Definition awaiting (pc : run_pc) : bool :=
  match pc with
  | Returned | Raised => false
  | _ => true
  end.

(** Every dictionary on the heap satisfies [P]. *)
Definition heap_all (P : Job.t -> Prop) (w : world) : Prop :=
  forall a j, heap w !! a = Some j -> P j.

(** What a job dictionary always looks like: [finished_at] is there
    exactly when the status is not [running]; a running or cancelled job
    has neither [stdout] nor [returncode]; [stdout], [stderr] and
    [returncode] come together; a finished or timed-out job has them, a
    timed-out one the return code -1; a job in [error] has an [error]. *)
Definition coherent (j : Job.t) : Prop :=
  (Job.status j = StRunning <-> Job.finished_at j = None)
  /\ (Job.status j = StRunning \/ Job.status j = StCancelled ->
      Job.stdout j = None)
  /\ (Job.status j = StRunning -> Job.error j = None)
  /\ (Job.stdout j = None <-> Job.returncode j = None)
  /\ (Job.stdout j = None <-> Job.stderr j = None)
  /\ (Job.status j = StFinished \/ Job.status j = StTimeout ->
      Job.stdout j <> None)
  /\ (Job.status j = StTimeout -> Job.returncode j = Some (-1))
  /\ (Job.status j = StError -> Job.error j <> None).

(** The keys written at submission. *)
Definition same_submission (j j' : Job.t) : Prop :=
  Job.command j' = Job.command j
  /\ Job.cwd j' = Job.cwd j
  /\ Job.created_at j' = Job.created_at j.

(** A job cancelled before its child was spawned, swept an hour later
    while the child still runs, whose output then ends. *)
Definition w_swept : world :=
  run_events empty_world
    [Exec slow_request job1 0 0; Cancel job1 1; Resume 0 (Spawned 1%nat) 2;
     ListJobs 3700; Resume 0 (Readline []) 4000].

Definition t_swept : task :=
  {| t_req := slow_request; t_job_id := job1; t_output_lines := 0%nat;
     t_pc := AwaitExit 1%nat |}.

(** How tasks, dictionaries and registry hang together: there is one
    task per dictionary, the task numbered [tid] appends to the
    dictionary at [tid], which holds the command and the directory of
    the task's request, and the registry binds an id only to the
    dictionary of a task started for that id. *)
Definition allocated (w : world) : Prop :=
  length (tasks w) = length (heap w)
  /\ (forall tid t,
        tasks w !! tid = Some t ->
        t_output_lines t = tid
        /\ exists j, heap w !! tid = Some j
                     /\ Job.command j = command (t_req t)
                     /\ Job.cwd j = cwd (t_req t))
  /\ (forall id a,
        jobs w !! id = Some a ->
        exists t, tasks w !! a = Some t /\ t_job_id t = id).

(** What of a task never changes. *)
Definition same_closure (t t' : task) : Prop :=
  t_req t' = t_req t /\ t_job_id t' = t_job_id t
  /\ t_output_lines t' = t_output_lines t.

(** Every dictionary of [h] is still there in [h'], [R]-related. *)
Definition heap_related (R : Job.t -> Job.t -> Prop) (h h' : list Job.t)
  : Prop :=
  forall a j, h !! a = Some j -> exists j', h' !! a = Some j' /\ R j j'.

(** The task numbered [tid] is [t], its job is registered and is the
    dictionary [j] at [a] that the task itself appends to. *)
Definition task_on (w : world) (tid : nat) (t : task) (a : addr) (j : Job.t)
  : Prop :=
  tasks w !! tid = Some t
  /\ get_job w (t_job_id t) = Some (a, j)
  /\ t_output_lines t = a.

(** The events of a child that prints [lines], each at its time. *)
Definition readlines (tid : nat) (lines : list (str * time)) : list event :=
  map (fun lt => Resume tid (Readline lt.1) lt.2) lines.

(** The ids drawn for the submissions among the events. *)
Definition exec_ids (es : list event) : list str :=
  omap (fun e => match e with
                 | Exec _ job_id _ _ => Some job_id
                 | _ => None
                 end) es.

(** With ids that do not repeat: every task was started for one of the
    ids [used], no two tasks for the same; and a dictionary that has a
    [stdout] has it from its own task, which has returned, and it is the
    join of the dictionary's lines. *)
Definition tidy (used : list str) (w : world) : Prop :=
  (forall tid t, tasks w !! tid = Some t -> t_job_id t ∈ used)
  /\ (forall tid tid' t t',
        tasks w !! tid = Some t -> tasks w !! tid' = Some t' ->
        t_job_id t = t_job_id t' -> tid = tid')
  /\ (forall tid t j,
        tasks w !! tid = Some t -> heap w !! tid = Some j ->
        Job.stdout j <> None ->
        t_pc t = Returned
        /\ Job.stdout j = Some (join (Job.output_lines j))).

(** The ASCII letter that [re.I] takes a code point for, if any; other
    code points are left alone. *)
Definition fold_case (x : N) : N :=
  match lower_ascii x with
  | Some l => l
  | None => (if x =? 305 then 105 else if x =? 383 then 115 else x)%N
  end.

(** [w] spells [l] as far as [re.I] can tell. *)
Definition spells (w l : str) : Prop :=
  Forall2 (fun x c => charset_match (LITERAL_IGNORE c) x = true) w l.

(** Whatever [k] accepts begins with white space. *)
Definition wants_space (k : nat -> str -> bool) : Prop :=
  forall p s, k p s = true -> exists sp t, s = sp :: t /\ isspace sp = true.

(* ===================================================================== *)
(** * Properties *)
(* ===================================================================== *)

(** ** Normalisation *)

Section Normalisation.

Implicit Types (s t : str) (c : N).

Lemma words_lstrip s : words (lstrip s) = words s.
Proof.
  induction s as [|c t IH]; [reflexivity|].
  cbn [lstrip]. destruct (isspace c) eqn:E; [|reflexivity].
  rewrite IH. cbn [words]. now rewrite E.
Qed.

Lemma words_snoc_space s c : isspace c = true -> words (s ++ [c]) = words s.
Proof.
  intros Hc. induction s as [|c0 t IH]; cbn [words app].
  - now rewrite Hc.
  - rewrite IH. destruct (isspace c0); [reflexivity|].
    destruct t as [|c1 t']; cbn [app]; [|reflexivity].
    now rewrite Hc.
Qed.

Lemma words_app_spaces s post :
  forallb isspace post = true -> words (s ++ post) = words s.
Proof.
  revert s. induction post as [|c post IH]; intros s Hp.
  - now rewrite app_nil_r.
  - cbn [forallb] in Hp. apply andb_prop in Hp as [Hc Hp].
    change (c :: post) with ([c] ++ post). rewrite app_assoc, IH by exact Hp.
    now apply words_snoc_space.
Qed.

Lemma rstrip_snoc s c :
  rstrip (s ++ [c]) = if isspace c then rstrip s else s ++ [c].
Proof.
  unfold rstrip. rewrite rev_app_distr. cbn [rev app lstrip].
  destruct (isspace c); [reflexivity|].
  cbn [rev]. now rewrite rev_involutive.
Qed.

(** [rstrip] cuts off a block of white space and leaves a solid end. *)
Lemma rstrip_spec s :
  exists post, s = rstrip s ++ post /\ forallb isspace post = true
               /\ ends_solid (rstrip s).
Proof.
  induction s as [|c s IH] using rev_ind.
  - exists []. repeat split. now left.
  - rewrite rstrip_snoc. destruct (isspace c) eqn:E.
    + destruct IH as (post & Hs & Hp & He).
      exists (post ++ [c]). repeat split; [| |exact He].
      * rewrite app_assoc. now rewrite <- Hs.
      * rewrite forallb_app, Hp. cbn. now rewrite E.
    + exists []. rewrite app_nil_r. repeat split.
      right. now exists s, c.
Qed.

Lemma words_strip s : words (strip s) = words s.
Proof.
  unfold strip. destruct (rstrip_spec (lstrip s)) as (post & Hs & Hp & _).
  rewrite <- (words_lstrip s). rewrite Hs at 2.
  now rewrite words_app_spaces.
Qed.

Lemma strip_ends_solid s : ends_solid (strip s).
Proof.
  unfold strip. now destruct (rstrip_spec (lstrip s)) as (post & _ & _ & He).
Qed.

Lemma ends_solid_tail c t : t <> [] -> ends_solid (c :: t) -> ends_solid t.
Proof.
  intros Hne [H|(s' & c' & H & Hc')]; [discriminate|].
  destruct s' as [|c0 s'']; cbn [app] in H.
  - injection H as _ H. congruence.
  - injection H as _ H. right. now exists s'', c'.
Qed.

Lemma ends_solid_words t : t <> [] -> ends_solid t -> words t <> [].
Proof.
  intros Hne [H|(s' & c & -> & Hc)]; [congruence|]. clear Hne.
  induction s' as [|c0 s' IH]; cbn [app words].
  - now rewrite Hc.
  - destruct (isspace c0); [exact IH|].
    destruct (s' ++ [c]) as [|c1 r] eqn:E; [discriminate|].
    destruct (isspace c1); [discriminate|].
    destruct (words (c1 :: r)); discriminate.
Qed.

Lemma sub_spaces_words in_run t :
  ends_solid t ->
  sub_spaces in_run t = lead in_run t ++ unwords (words t).
Proof.
  revert in_run. induction t as [|c t IH]; intros b He; [reflexivity|].
  cbn [sub_spaces lead words].
  destruct (isspace c) eqn:Ec.
  - assert (Hne : t <> []).
    { intros ->. destruct He as [H|(s' & c' & H & Hc')]; [discriminate|].
      destruct s' as [|? [|? ?]]; cbn in H; try discriminate.
      injection H as ->. congruence. }
    pose proof (ends_solid_tail _ _ Hne He) as He'.
    rewrite (IH true He').
    assert (Hl : lead true t = []).
    { destruct t; cbn; [reflexivity|]. now rewrite andb_false_r. }
    rewrite Hl. now destruct b.
  - cbn [andb app]. destruct t as [|c' t'].
    + reflexivity.
    + assert (He' : ends_solid (c' :: t'))
        by (apply (ends_solid_tail c); [discriminate|exact He]).
      rewrite (IH false He'). cbn [lead negb].
      destruct (isspace c') eqn:Ec'.
      * cbn [andb app unwords].
        pose proof (ends_solid_words (c' :: t') ltac:(discriminate) He') as Hw.
        destruct (words (c' :: t')) as [|w ws]; [congruence|reflexivity].
      * cbn [andb app].
        assert (Hw : words (c' :: t') <> []).
        { apply ends_solid_words; [discriminate|exact He']. }
        destruct (words (c' :: t')) as [|w ws]; [congruence|reflexivity].
Qed.

Lemma lstrip_head s c t : lstrip s = c :: t -> isspace c = false.
Proof.
  induction s as [|x s IH]; [discriminate|].
  cbn [lstrip]. destruct (isspace x) eqn:Ex; [exact IH|].
  now intros [= <- _].
Qed.

Lemma rstrip_head c t :
  isspace c = false -> exists r, rstrip (c :: t) = c :: r.
Proof.
  intros Hc. induction t as [|x t IH] using rev_ind.
  - exists []. unfold rstrip. cbn. now rewrite Hc.
  - rewrite app_comm_cons, rstrip_snoc.
    destruct (isspace x); [exact IH|]. now exists (t ++ [x]).
Qed.

Lemma lead_strip s : lead false (strip s) = [].
Proof.
  unfold strip. destruct (lstrip s) as [|c t] eqn:El; [reflexivity|].
  pose proof (lstrip_head _ _ _ El) as Hc.
  destruct (rstrip_head c t Hc) as [r ->]. cbn. now rewrite Hc.
Qed.

(** Normalising trims the command and collapses every run of white
    space: what is left are its words, one space apart. *)
Lemma normalize_words s : normalize s = unwords (words s).
Proof.
  unfold normalize. rewrite sub_spaces_words by apply strip_ends_solid.
  now rewrite words_strip, lead_strip.
Qed.

End Normalisation.

(** ** The pattern loop *)

Lemma first_blocking_Some patterns cmd reason :
  first_blocking patterns cmd = Some reason <->
  exists (i : nat) p,
    patterns !! i = Some p /\ search p cmd = true
    /\ (forall (j : nat) q, (j < i)%nat -> patterns !! j = Some q ->
                            search q cmd = false)
    /\ reason = blocked_reason p.
Proof.
  revert reason. induction patterns as [|p0 rest IH]; intros reason; cbn [first_blocking].
  - split; [discriminate|]. now intros (i & p & H & _).
  - destruct (search p0 cmd) eqn:E0.
    + split.
      * intros [= <-]. exists 0%nat, p0. repeat split; [exact E0|]. intros; lia.
      * intros (i & p & Hi & Hp & Hlt & ->). destruct i as [|i].
        -- cbn in Hi. now injection Hi as ->.
        -- specialize (Hlt 0%nat p0 ltac:(lia) eq_refl). congruence.
    + rewrite IH. split.
      * intros (i & p & Hi & Hp & Hlt & ->). exists (S i), p.
        repeat split; [exact Hi|exact Hp|].
        intros [|j] q Hj Hq; cbn in Hq; [congruence|]. apply (Hlt j); [lia|exact Hq].
      * intros (i & p & Hi & Hp & Hlt & ->). destruct i as [|i].
        -- cbn in Hi. injection Hi as ->. congruence.
        -- exists i, p. repeat split; [exact Hi|exact Hp|].
           intros j q Hj Hq. apply (Hlt (S j)); [lia|exact Hq].
Qed.

Lemma first_blocking_None patterns cmd :
  first_blocking patterns cmd = None <->
  forall p, p ∈ patterns -> search p cmd = false.
Proof.
  induction patterns as [|p0 rest IH]; cbn [first_blocking].
  - split; [|reflexivity]. intros _ p Hp. inversion Hp.
  - destruct (search p0 cmd) eqn:E0.
    + split; [discriminate|]. intros H. specialize (H p0 ltac:(left)). congruence.
    + rewrite IH. split.
      * intros H p Hp. inversion Hp; subst; auto.
      * intros H p Hp. apply H. now right.
Qed.

(** C5.  The gate: [is_blocked_command] looks only at the normalised
    command, which is the command's words one space apart (trimmed, every
    run of white space collapsed).  It answers with the reason of the
    first pattern of [BLOCKED_PATTERNS], in list order, that is found in
    the normalised command, the reason spelling out that pattern; it
    answers [None] exactly when no pattern is found.  Being a function of
    the command alone, it reads and writes nothing else. *)
Theorem is_blocked_command_first_match (command : str) :
  let cmd := normalize command in
  cmd = unwords (words command)
  /\ (forall reason,
        is_blocked_command command = Some reason <->
        exists (i : nat) p,
          BLOCKED_PATTERNS !! i = Some p
          /\ search p cmd = true
          /\ (forall (j : nat) q, (j < i)%nat ->
                BLOCKED_PATTERNS !! j = Some q -> search q cmd = false)
          /\ reason = u"Blocked: command matches dangerous pattern ("
                      ++ pattern p ++ u")")
  /\ (is_blocked_command command = None <->
      forall p, p ∈ BLOCKED_PATTERNS -> search p cmd = false).
Proof.
  cbv zeta. split; [apply normalize_words|]. split.
  - intros reason. apply first_blocking_Some.
  - apply first_blocking_None.
Qed.

(** ** Frame lemmas: what each atomic stretch leaves alone *)

Lemma mutate_jobs a f w : jobs (mutate a f w) = jobs w.
Proof. unfold mutate. now destruct (heap w !! a). Qed.

Lemma mutate_tasks a f w : tasks (mutate a f w) = tasks w.
Proof. unfold mutate. now destruct (heap w !! a). Qed.

Lemma mutate_signals a f w : signals (mutate a f w) = signals w.
Proof. unfold mutate. now destruct (heap w !! a). Qed.

Lemma mutate_length a f w : length (heap (mutate a f w)) = length (heap w).
Proof.
  unfold mutate. destruct (heap w !! a); [|reflexivity].
  cbn. apply length_insert.
Qed.

Lemma mutate_lookup a f w b :
  heap (mutate a f w) !! b =
  if decide (a = b) then f <$> heap w !! b else heap w !! b.
Proof.
  unfold mutate. destruct (heap w !! a) as [j|] eqn:E.
  - cbn [heap with_heap]. case_decide as Hab.
    + subst b. rewrite E. cbn.
      apply list_lookup_insert_eq. now apply lookup_lt_Some in E.
    + now apply list_lookup_insert_ne.
  - case_decide as Hab; [|reflexivity]. subst b. now rewrite E.
Qed.

Lemma update_job_frame job_id f w w' :
  update_job job_id f w = Some w' ->
  jobs w' = jobs w /\ tasks w' = tasks w /\ signals w' = signals w
  /\ length (heap w') = length (heap w).
Proof.
  unfold update_job. destruct (get_job w job_id) as [[a j]|]; [|discriminate].
  intros [= <-].
  now rewrite mutate_jobs, mutate_tasks, mutate_signals, mutate_length.
Qed.

Lemma or_key_error_frame r pc w :
  (forall w', r = Some w' ->
     jobs w' = jobs w /\ length (heap w') = length (heap w)) ->
  jobs (or_key_error r pc w).1 = jobs w
  /\ length (heap (or_key_error r pc w).1) = length (heap w).
Proof. intros H. destruct r as [w'|]; cbn; [now apply H|easy]. Qed.

Lemma on_exception_frame t e now w :
  jobs (on_exception t e now w).1 = jobs w
  /\ length (heap (on_exception t e now w).1) = length (heap w).
Proof.
  unfold on_exception.
  destruct (update_job _ _ w) as [w'|] eqn:E; cbn [fst]; [|easy].
  apply update_job_frame in E. tauto.
Qed.

Lemma resume_frame t ev now w :
  jobs (resume t ev now w).1 = jobs w
  /\ length (heap (resume t ev now w).1) = length (heap w).
Proof.
  assert (Hu : forall f w',
             update_job (t_job_id t) f w = Some w' ->
             jobs w' = jobs w /\ length (heap w') = length (heap w)).
  { intros f w' H. apply update_job_frame in H. tauto. }
  unfold resume.
  destruct (t_pc t), ev as [p'|[|c l]|[ke|]|ws|e]; cbn [fst];
    try easy; try apply on_exception_frame;
    try (apply or_key_error_frame; eauto).
  - now rewrite mutate_jobs, mutate_length.
  - apply (on_exception_frame t ke now (with_signals _ w)).
Qed.

Lemma run_step_frame tid ev now w :
  jobs (run_step tid ev now w) = jobs w
  /\ length (heap (run_step tid ev now w)) = length (heap w).
Proof.
  unfold run_step. destruct (tasks w !! tid) as [t|]; [|easy].
  pose proof (resume_frame t ev now w) as H.
  destruct (resume t ev now w) as [w' pc]. exact H.
Qed.

(** ** Retention sweep *)

Lemma elem_of_expired_ids now w jid :
  jid ∈ expired_ids now w <->
  exists a j, get_job w jid = Some (a, j) /\ expired now j = true.
Proof.
  unfold expired_ids, get_job. rewrite list_elem_of_omap. split.
  - intros ([jid' a] & Hin & Hf). apply elem_of_map_to_list in Hin.
    destruct (heap w !! a) as [j|] eqn:Ea; [|discriminate].
    destruct (expired now j) eqn:Ee; [|discriminate].
    injection Hf as <-. exists a, j. now rewrite Hin, Ea.
  - intros (a & j & Hg & He).
    destruct (jobs w !! jid) as [a'|] eqn:Ej; [|discriminate].
    destruct (heap w !! a') as [j'|] eqn:Ea; [|discriminate].
    injection Hg as -> ->. exists (jid, a). split.
    + now apply elem_of_map_to_list.
    + now rewrite Ea, He.
Qed.

Lemma lookup_foldl_delete (js : gmap str addr) (ids : list str) (jid : str) :
  foldl (fun js jid => delete jid js) js ids !! jid =
  if decide (jid ∈ ids) then None else js !! jid.
Proof.
  revert js. induction ids as [|i ids IH]; intros js; cbn [foldl].
  - rewrite decide_False; [reflexivity|]. apply not_elem_of_nil.
  - rewrite IH. destruct (decide (jid ∈ ids)) as [Hin|Hout].
    + rewrite decide_True; [reflexivity|]. now right.
    + destruct (decide (jid = i)) as [->|Hne].
      * rewrite decide_True by left. apply lookup_delete_eq.
      * rewrite decide_False by (rewrite elem_of_cons; tauto).
        now apply lookup_delete_ne.
Qed.

Lemma get_job_purge now w jid :
  get_job (purge_old_jobs now w) jid =
  match get_job w jid with
  | Some (a, j) => if expired now j then None else Some (a, j)
  | None => None
  end.
Proof.
  destruct (decide (jid ∈ expired_ids now w)) as [Hin|Hout].
  - pose proof Hin as (a & j & Hg & He)%elem_of_expired_ids.
    rewrite Hg, He. unfold get_job, purge_old_jobs. cbn [jobs with_jobs].
    now rewrite lookup_foldl_delete, decide_True.
  - unfold get_job at 1, purge_old_jobs. cbn [jobs heap with_jobs].
    rewrite lookup_foldl_delete, decide_False by exact Hout.
    fold (get_job w jid).
    destruct (get_job w jid) as [[a j]|] eqn:Hg; [|reflexivity].
    destruct (expired now j) eqn:He; [|reflexivity].
    exfalso. apply Hout, elem_of_expired_ids. eauto.
Qed.

Lemma is_terminal_spec s : is_terminal s = true <-> s <> StRunning.
Proof. destruct s; cbn; split; congruence. Qed.

(** The filter of the sweep, in words: terminal, and finished more than
    the retention window ago. *)
Lemma expired_spec now j :
  expired now j = true <->
  Job.status j <> StRunning
  /\ exists f, Job.finished_at j = Some f /\ now - f > JOB_TTL_SECONDS.
Proof.
  unfold expired. rewrite andb_true_iff, is_terminal_spec, Z.gtb_lt.
  unfold JOB_TTL_SECONDS. split.
  - intros [Hs Hf]. split; [exact Hs|].
    destruct (Job.finished_at j) as [f|]; cbn in Hf; [|lia].
    exists f. split; [reflexivity|lia].
  - intros [Hs (f & -> & Hf)]. cbn. split; [exact Hs|lia].
Qed.

Lemma wf_purge now w : wf w -> wf (purge_old_jobs now w).
Proof.
  intros H jid a. unfold purge_old_jobs. cbn [jobs heap with_jobs].
  rewrite lookup_foldl_delete. case_decide; [discriminate|]. apply H.
Qed.

Lemma wf_exec req job_id now now' w :
  wf w -> wf (exec_command req job_id now now' w).1.
Proof.
  intros H. apply (wf_purge now) in H. unfold exec_command.
  destruct (is_blocked_command _); cbn [fst]; [exact H|].
  intros jid a. cbn [jobs heap purge_old_jobs with_jobs].
  rewrite length_app. cbn [length].
  rewrite lookup_insert. case_decide.
  - intros [= <-]. lia.
  - intros Hj. apply H in Hj. cbn [heap purge_old_jobs with_jobs] in Hj. lia.
Qed.

Lemma wf_cancel job_id now w : wf w -> wf (cancel_job job_id now w).1.
Proof.
  intros H. unfold cancel_job.
  destruct (get_job w job_id) as [[a j]|]; [|exact H].
  destruct (negb _); [exact H|]. cbn [fst].
  intros jid b. rewrite mutate_jobs, mutate_length.
  destruct (Job.process j); apply H.
Qed.

Lemma wf_run_step tid ev now w : wf w -> wf (run_step tid ev now w).
Proof.
  intros H jid a. destruct (run_step_frame tid ev now w) as [-> ->]. apply H.
Qed.

Lemma wf_apply_event w e : wf w -> wf (apply_event w e).
Proof.
  destruct e; cbn [apply_event].
  - apply wf_exec.
  - apply wf_cancel.
  - apply wf_purge.
  - apply wf_run_step.
Qed.

Lemma reachable_wf w : reachable w -> wf w.
Proof.
  intros [es ->]. induction es as [|e es IH] using rev_ind.
  - intros jid a. cbn. now rewrite lookup_empty.
  - unfold run_events. rewrite foldl_snoc. now apply wf_apply_event.
Qed.

Lemma elem_of_list_jobs now w s :
  s ∈ (list_jobs now w).2 <->
  exists jid a j,
    get_job (purge_old_jobs now w) jid = Some (a, j) /\ s = summary jid j.
Proof.
  unfold list_jobs. cbn [snd]. rewrite list_elem_of_omap. unfold get_job. split.
  - intros ([jid a] & Hin & Hf). apply elem_of_map_to_list in Hin.
    destruct (heap _ !! a) as [j|] eqn:Ea; [|discriminate].
    injection Hf as <-. exists jid, a, j. now rewrite Hin, Ea.
  - intros (jid & a & j & Hg & ->).
    destruct (jobs _ !! jid) as [a'|] eqn:Ej; [|discriminate].
    destruct (heap _ !! a') as [j'|] eqn:Ea; [|discriminate].
    injection Hg as -> ->. exists (jid, a). split.
    + now apply elem_of_map_to_list.
    + now rewrite Ea.
Qed.

(** C8.  The sweep at time [now] removes from the registry exactly the
    jobs that are terminal and whose [finished_at] lies more than 3600
    before [now]; every other job (running, or terminal inside the
    window) stays, the same dictionary with the same contents, and
    nothing but the registry is touched.  Both a submission and a listing
    are preceded by the sweep: whatever a submission at [now] answers,
    the other ids are then as the sweep leaves them, and a listing lists
    exactly the jobs the sweep retains. *)
Theorem purge_old_jobs_exact (now : time) (w : world) :
  reachable w ->
  let w' := purge_old_jobs now w in
  (forall jid a j,
      get_job w jid = Some (a, j) ->
      (get_job w' jid = None <->
       Job.status j <> StRunning
       /\ exists f, Job.finished_at j = Some f /\ now - f > 3600)
      /\ (get_job w' jid <> None -> get_job w' jid = Some (a, j)))
  /\ (forall jid, get_job w jid = None -> get_job w' jid = None)
  /\ heap w' = heap w /\ tasks w' = tasks w /\ signals w' = signals w
  /\ (forall req job_id now' jid,
        jid <> job_id ->
        get_job (exec_command req job_id now now' w).1 jid = get_job w' jid)
  /\ (list_jobs now w).1 = w'
  /\ (forall s,
        s ∈ (list_jobs now w).2 <->
        exists jid a j, get_job w' jid = Some (a, j) /\ s = summary jid j).
Proof.
  intros Hr. cbv zeta.
  split; [|split; [|split; [|split; [|split; [|split; [|split]]]]]];
    try reflexivity.
  - intros jid a j Hg. rewrite get_job_purge, Hg. split.
    + rewrite <- expired_spec. destruct (expired now j); split; congruence.
    + now destruct (expired now j).
  - intros jid Hn. now rewrite get_job_purge, Hn.
  - intros req job_id now' jid Hne.
    pose proof (wf_purge now w (reachable_wf w Hr)) as Hwf.
    unfold exec_command. destruct (is_blocked_command _); [reflexivity|].
    cbn [fst]. unfold get_job. cbn [jobs heap].
    rewrite lookup_insert_ne by congruence.
    destruct (jobs (purge_old_jobs now w) !! jid) as [a|] eqn:Ej; [|reflexivity].
    apply Hwf in Ej. now rewrite lookup_app_l.
  - intros s. apply elem_of_list_jobs.
Qed.

(** ** Submission *)

(** C4 (as amended).  A submission whose command is found by the gate
    answers with the 400 rejection carrying the gate's reason and creates
    nothing: no dictionary is allocated, no task is started, no child is
    signalled, and the registry is the one the retention sweep at that
    time leaves, so that every id is either gone (swept) or bound to the
    same job with the same contents as before. *)
Theorem exec_command_rejects_blocked
        (req : CommandRequest) (job_id : str) (now now' : time) (w : world)
        (reason : str) :
  is_blocked_command (command req) = Some reason ->
  let '(w', answer) := exec_command req job_id now now' w in
  answer = HTTPException 400 reason
  /\ w' = purge_old_jobs now w
  /\ heap w' = heap w /\ tasks w' = tasks w /\ signals w' = signals w
  /\ (forall jid,
        get_job w' jid = None \/ get_job w' jid = get_job w jid)
  /\ (forall jid a j,
        get_job w jid = Some (a, j) -> expired now j = false ->
        get_job w' jid = Some (a, j)).
Proof.
  intros Hb. unfold exec_command. rewrite Hb.
  repeat split; try reflexivity.
  - intros jid. rewrite get_job_purge.
    destruct (get_job w jid) as [[a j]|]; [|now left].
    destruct (expired now j); [now left|now right].
  - intros jid a j Hg He. now rewrite get_job_purge, Hg, He.
Qed.

(** ** Cancellation *)

Lemma status_eqb_eq s1 s2 : status_eqb s1 s2 = true <-> s1 = s2.
Proof. destruct s1, s2; cbn; split; congruence. Qed.

Lemma get_job_mutate a f w jid :
  get_job (mutate a f w) jid =
  match get_job w jid with
  | Some (b, j) => Some (b, if decide (a = b) then f j else j)
  | None => None
  end.
Proof.
  unfold get_job. rewrite mutate_jobs.
  destruct (jobs w !! jid) as [b|]; [|reflexivity].
  rewrite mutate_lookup. destruct (heap w !! b); cbn; destruct (decide (a = b)); reflexivity.
Qed.

(** C7.  Cancelling a job that is not running succeeds, answers
    ["Job is already <status>"] with the job's present status, and
    changes nothing at all: the world after the request is the world
    before it, hence every key of the job, [status], [finished_at] and
    [output_lines] among them, is as it was. *)
Theorem cancel_job_not_running
        (job_id : str) (a : addr) (j : Job.t) (now : time) (w : world) :
  get_job w job_id = Some (a, j) ->
  Job.status j <> StRunning ->
  cancel_job job_id now w =
    (w, Ok (u"Job is already " ++ status_str (Job.status j)))
  /\ get_job (cancel_job job_id now w).1 job_id = Some (a, j).
Proof.
  intros Hg Hs. unfold cancel_job. rewrite Hg.
  destruct (status_eqb (Job.status j) StRunning) eqn:E.
  - now apply status_eqb_eq in E.
  - cbn [negb fst]. easy.
Qed.

Lemma get_job_with_tasks ts w jid : get_job (with_tasks ts w) jid = get_job w jid.
Proof. reflexivity. Qed.

Lemma run_step_at tid t ev now w :
  tasks w !! tid = Some t ->
  run_step tid ev now w =
    with_tasks (<[tid := at_pc (resume t ev now w).2 t]>
                  (tasks (resume t ev now w).1))
               (resume t ev now w).1.
Proof.
  intros Ht. unfold run_step. rewrite Ht. now destruct (resume t ev now w).
Qed.

(** C10.  Cancelling a running job whose ["process"] is still [None]
    succeeds with ["Job cancelled"] and calls [kill()] on nothing: the
    job is marked cancelled with [finished_at] set to the time of the
    request and is otherwise as before, the task is left as it is, and
    the list of signalled children does not change.  When the spawn
    then completes with child [p], the task records [p] in the job and
    goes on to read its output; [p] is not signalled and the job still
    says cancelled. *)
Theorem cancel_job_before_spawn
        (job_id : str) (a : addr) (j : Job.t) (now : time) (w : world) :
  get_job w job_id = Some (a, j) ->
  Job.status j = StRunning ->
  Job.process j = None ->
  let '(w', answer) := cancel_job job_id now w in
  answer = Ok (u"Job cancelled")
  /\ signals w' = signals w
  /\ tasks w' = tasks w
  /\ get_job w' job_id =
       Some (a, Job.mk StCancelled (Job.command j) (Job.cwd j)
                       (Job.created_at j) (Job.output_lines j) None
                       (Job.stdout j) (Job.stderr j) (Job.returncode j)
                       (Job.error j) (Some now))
  /\ (forall tid t p now2,
        tasks w' !! tid = Some t ->
        t_job_id t = job_id ->
        t_pc t = AwaitSpawn ->
        let w'' := run_step tid (Spawned p) now2 w' in
        signals w'' = signals w
        /\ t_pc <$> tasks w'' !! tid = Some (AwaitReadline p)
        /\ exists j'',
             get_job w'' job_id = Some (a, j'')
             /\ Job.process j'' = Some p
             /\ Job.status j'' = StCancelled).
Proof.
  intros Hg Hs Hp. unfold cancel_job. rewrite Hg, Hs, Hp. cbn [status_eqb negb].
  assert (Hg' : get_job (mutate a (Job.update_cancelled now) w) job_id =
                Some (a, Job.update_cancelled now j)).
  { rewrite get_job_mutate, Hg. now rewrite decide_True. }
  split; [reflexivity|]. split; [apply mutate_signals|].
  split; [apply mutate_tasks|]. split.
  { rewrite Hg'. unfold Job.update_cancelled. now rewrite Hp. }
  intros tid t p now2 Ht Hid Hpc. cbv zeta.
  rewrite (run_step_at _ _ _ _ _ Ht). unfold resume. rewrite Hpc.
  unfold update_job. rewrite Hid, Hg'. cbn [or_key_error fst snd].
  split; [|split].
  - cbn [signals with_tasks]. now rewrite !mutate_signals.
  - cbn [tasks with_tasks]. rewrite list_lookup_insert_eq; [reflexivity|].
    rewrite !mutate_tasks. apply lookup_lt_Some in Ht.
    now rewrite mutate_tasks in Ht.
  - exists (Job.set_process p (Job.update_cancelled now j)).
    split; [|easy].
    rewrite get_job_with_tasks, get_job_mutate, Hg'.
    now rewrite decide_True.
Qed.

(** ** Timeout *)


Lemma run_step_pc tid t ev now w :
  tasks w !! tid = Some t ->
  t_pc <$> tasks (run_step tid ev now w) !! tid = Some (resume t ev now w).2
  /\ heap (run_step tid ev now w) = heap (resume t ev now w).1
  /\ jobs (run_step tid ev now w) = jobs (resume t ev now w).1
  /\ signals (run_step tid ev now w) = signals (resume t ev now w).1.
Proof.
  intros Ht. rewrite (run_step_at _ _ _ _ _ Ht). cbn [tasks heap jobs signals with_tasks].
  split; [|easy]. rewrite list_lookup_insert_eq; [reflexivity|].
  apply lookup_lt_Some in Ht.
  assert (Hl : length (tasks (resume t ev now w).1) = length (tasks w)).
  { unfold resume, or_key_error, on_exception, update_job.
    destruct (t_pc t), ev as [p'|[|c l]|[ke|]|ws|e]; cbn [fst];
      try reflexivity;
      repeat match goal with
             | |- context [get_job ?w0 ?i] =>
                 destruct (get_job w0 i) as [[? ?]|]; cbn [fst]
             end;
      rewrite ?mutate_tasks; reflexivity. }
  now rewrite Hl.
Qed.

Lemma on_exception_registered t e now w a j :
  get_job w (t_job_id t) = Some (a, j) ->
  on_exception t e now w = (mutate a (Job.update_error e now) w, Returned).
Proof. intros Hg. unfold on_exception, update_job. now rewrite Hg. Qed.



(** ** Output stream *)

Lemma gen_drain_after_lines fuel job_id a j idx w :
  heap w !! a = Some j ->
  (length (Job.output_lines j) <= idx)%nat ->
  (fuel <> 0)%nat ->
  (let '(out, g) := gen_lines a idx w in
   match out with
   | Yield chunk =>
       let '(chunks, g') := gen_drain fuel job_id g w in (chunk :: chunks, g')
   | _ => ([], g)
   end) = after_lines j idx.
Proof.
  intros Ha Hlen Hf. unfold gen_lines, after_lines. rewrite Ha.
  rewrite (lookup_ge_None_2 _ _ Hlen).
  destruct (negb _); [|reflexivity].
  destruct fuel as [|fuel]; [congruence|reflexivity].
Qed.

(** Draining from inside the inner loop. *)
Lemma gen_drain_lines job_id a j w :
  heap w !! a = Some j ->
  forall n idx fuel,
    (length (Job.output_lines j) - S idx <= n)%nat ->
    (n + 2 <= fuel)%nat ->
    gen_drain fuel job_id (GenLine a idx) w =
      (map data_chunk (drop (S idx) (Job.output_lines j))
         ++ (after_lines j (Nat.max (S idx) (length (Job.output_lines j)))).1,
       (after_lines j (Nat.max (S idx) (length (Job.output_lines j)))).2).
Proof.
  intros Ha. induction n as [|n IH]; intros idx fuel Hn Hf.
  - destruct fuel as [|fuel]; [lia|]. cbn [gen_drain gen_resume].
    assert (Hlen : (length (Job.output_lines j) <= S idx)%nat) by lia.
    pose proof (gen_drain_after_lines fuel job_id a j (S idx) w Ha Hlen
                  ltac:(lia)) as H.
    rewrite drop_ge by exact Hlen. rewrite Nat.max_l by exact Hlen.
    destruct (gen_lines a (S idx) w) as [[chunk| |] g]; cbn [app map];
      try (rewrite <- H; reflexivity).
    destruct (gen_drain fuel job_id g w). now rewrite <- H.
  - destruct fuel as [|fuel]; [lia|]. cbn [gen_drain gen_resume].
    destruct (Job.output_lines j !! S idx) as [line|] eqn:El.
    + unfold gen_lines. rewrite Ha, El.
      rewrite (IH (S idx) fuel) by lia.
      pose proof (lookup_lt_Some _ _ _ El) as Hlt.
      rewrite (drop_S _ _ _ El). cbn [map app].
      rewrite !Nat.max_r by lia. reflexivity.
    + apply lookup_ge_None_1 in El.
      apply (IH idx (S fuel)); lia.
Qed.

(** Draining from the top of the outer loop with cursor [idx]. *)
Lemma gen_drain_poll job_id a j w g idx fuel :
  get_job w job_id = Some (a, j) ->
  (g = GenSleep idx \/ (g = GenStart /\ idx = 0%nat)) ->
  (length (Job.output_lines j) - idx + 2 <= fuel)%nat ->
  gen_drain fuel job_id g w =
    (map data_chunk (drop idx (Job.output_lines j))
       ++ (after_lines j (Nat.max idx (length (Job.output_lines j)))).1,
     (after_lines j (Nat.max idx (length (Job.output_lines j)))).2).
Proof.
  intros Hg Hpc Hf.
  assert (Ha : heap w !! a = Some j).
  { unfold get_job in Hg. destruct (jobs w !! job_id) as [b|]; [|discriminate].
    destruct (heap w !! b) eqn:E; [|discriminate]. now injection Hg as -> ->. }
  destruct fuel as [|fuel]; [lia|]. cbn [gen_drain].
  assert (Hr : gen_resume job_id g w = gen_lines a idx w).
  { destruct Hpc as [->|[-> ->]]; cbn [gen_resume]; unfold gen_poll;
      now rewrite Hg. }
  rewrite Hr.
  destruct (Job.output_lines j !! idx) as [line|] eqn:El.
  - unfold gen_lines. rewrite Ha, El.
    pose proof (lookup_lt_Some _ _ _ El) as Hlt.
    rewrite (gen_drain_lines job_id a j w Ha
               (length (Job.output_lines j) - S idx) idx fuel) by lia.
    rewrite (drop_S _ _ _ El). cbn [map app].
    rewrite !Nat.max_r by lia. reflexivity.
  - apply lookup_ge_None_1 in El.
    pose proof (gen_drain_after_lines fuel job_id a j idx w Ha El
                  ltac:(lia)) as H.
    rewrite drop_ge by exact El. rewrite Nat.max_l by exact El.
    destruct (gen_lines a idx w) as [[chunk| |] g']; cbn [app map];
      try (rewrite <- H; reflexivity).
    destruct (gen_drain fuel job_id g' w). now rewrite <- H.
Qed.

Lemma delivered_closed seen c L : delivered seen c L [] GenClosed.
Proof.
  exists 0%nat. split; [now left|]. left. split; [reflexivity|now right].
Qed.

Lemma delivered_mono (seen seen' : Job.t -> Prop) c L chunks g :
  (forall j, seen j -> seen' j) ->
  delivered seen c L chunks g -> delivered seen' c L chunks g.
Proof.
  intros Hm (n & Hn & [H|(j & Hj & H)]); exists n; (split; [exact Hn|]);
    [left; exact H|right; exists j; split; [auto|exact H]].
Qed.

Lemma gen_run_closed job_id ws g :
  g = GenDone \/ g = GenClosed ->
  gen_run job_id g ws = ([], GenClosed)
  \/ (ws = [] /\ gen_run job_id g ws = ([], g)).
Proof.
  revert g. induction ws as [|w ws IH]; intros g Hg.
  - right. easy.
  - left. cbn [gen_run].
    assert (Hr : gen_resume job_id g w = (StopAsyncIteration, GenClosed))
      by (destruct Hg as [-> | ->]; reflexivity).
    rewrite Hr.
    destruct (IH GenClosed (or_intror eq_refl)) as [-> | [-> ->]]; reflexivity.
Qed.

Lemma delivered_step seen c L line chunks g :
  L !! c = Some line ->
  delivered seen (S c) L chunks g ->
  delivered seen c L (data_chunk line :: chunks) g.
Proof.
  intros Hl (n & Hn & H).
  pose proof (lookup_lt_Some _ _ _ Hl) as Hlt.
  assert (Hd : take (S n) (drop c L) = line :: take n (drop (S c) L))
    by now rewrite (drop_S _ _ _ Hl).
  exists (S n). split; [right; lia|].
  rewrite Hd. cbn [map app].
  replace (c + S n)%nat with (S c + n)%nat by lia.
  destruct H as [[-> Hg]|(j & Hj & Hs & Hlen & -> & Hg)]; [left|right]; eauto 10.
Qed.

Lemma gen_run_delivered job_id a L ws :
  Forall (follows a L job_id) ws ->
  forall g c,
    holds a g -> cursor g = Some c ->
    delivered (seen_in a ws) c L
              (gen_run job_id g ws).1 (gen_run job_id g ws).2.
Proof.
  induction 1 as [|w ws Hw Hws IH]; intros g c Hh Hc.
  - cbn. exists 0%nat. split; [now left|]. left.
    rewrite Nat.add_0_r. split; [reflexivity|now left].
  - destruct Hw as [(j & Ha & Hpre) Hreg].
    assert (Hup : forall c' chunks g',
               delivered (seen_in a ws) c' L chunks g' ->
               delivered (seen_in a (w :: ws)) c' L chunks g').
    { intros c' chunks g'. apply delivered_mono.
      intros j' (w' & Hin & Hj'). exists w'. split; [now right|exact Hj']. }
    assert (Hlines : delivered (seen_in a (w :: ws)) c L
                       (gen_then job_id (gen_lines a c w) ws).1
                       (gen_then job_id (gen_lines a c w) ws).2).
    { unfold gen_lines, gen_then. rewrite Ha.
      destruct (Job.output_lines j !! c) as [line|] eqn:El.
      - specialize (IH (GenLine a c) (S c) eq_refl eq_refl).
        destruct (gen_run job_id (GenLine a c) ws) as [chunks g''].
        cbn [fst snd] in *. apply delivered_step; [|now apply Hup].
        now apply (prefix_lookup_Some _ _ _ _ El).
      - apply lookup_ge_None_1 in El.
        destruct (negb _) eqn:Es.
        + assert (Hs : Job.status j <> StRunning)
            by (intros E; rewrite E in Es; discriminate).
          assert (Hseen : seen_in a (w :: ws) j)
            by (exists w; split; [now left|exact Ha]).
          destruct (gen_run_closed job_id ws GenDone (or_introl eq_refl))
            as [-> | [-> ->]]; cbn [fst snd];
            exists 0%nat; (split; [now left|]); right; exists j;
            rewrite Nat.add_0_r; eauto 10.
        + specialize (IH (GenSleep c) c I eq_refl).
          destruct (gen_run job_id (GenSleep c) ws). now apply Hup. }
    assert (Hpoll : delivered (seen_in a (w :: ws)) c L
                      (gen_then job_id (gen_poll job_id c w) ws).1
                      (gen_then job_id (gen_poll job_id c w) ws).2).
    { unfold gen_poll, get_job. destruct Hreg as [-> | ->].
      - rewrite Ha. exact Hlines.
      - unfold gen_then.
        destruct (gen_run_closed job_id ws GenClosed (or_intror eq_refl))
          as [-> | [-> ->]]; cbn [fst snd]; apply delivered_closed. }
    change (gen_run job_id g (w :: ws))
      with (gen_then job_id (gen_resume job_id g w) ws).
    destruct g as [|b idx|idx| |]; cbn [gen_resume cursor holds] in *;
      try discriminate.
    + injection Hc as <-. exact Hpoll.
    + subst b. injection Hc as <-. exact Hlines.
    + injection Hc as <-. exact Hpoll.
Qed.

(** C9.  For a job that exists, [stream_output] hands out a generator
    (no 404).  Whenever the generator runs, be it for the first time or
    after a sleep with its cursor at [idx], and the job is in the
    registry, it yields the job's lines from its cursor on, in order,
    one chunk each, the chunk of a line being the text ["data: "], the
    line itself and a newline; then, if the job's status is not
    [running], it yields the one done marker and ends, the marker being
    the text ["event: done"], a newline, ["data: "], the job's status
    and two newlines; otherwise it sleeps with its cursor behind the
    last line yielded and polls again.  If it finds the job gone from
    the registry when it polls, it ends without a further chunk and
    without raising; if the job goes while the generator is handing out
    lines, the generator carries on from the dictionary it holds.  Over
    a whole run, the world changing between any two activations while
    the job's output only grows towards [L]: what the subscriber has
    received is, in order and without gap or repetition, the chunks of
    the first lines of [L], followed by the done marker only if the job
    was seen with a status other than [running] and with no line left
    undelivered.  A line can be read back from its chunk and a status
    from its marker, and no chunk of a line is a done marker. *)
Theorem stream_output_follows
        (job_id : str) (a : addr) (j : Job.t) (w : world) :
  get_job w job_id = Some (a, j) ->
  let data := fun line : str => u"data: " ++ line ++ NL in
  let done := fun s : job_status =>
                u"event: done" ++ NL ++ u"data: " ++ status_str s
                  ++ NL ++ NL in
  stream_output job_id w = Ok GenStart
  /\ (forall w' a' j' g idx fuel,
        get_job w' job_id = Some (a', j') ->
        g = GenSleep idx \/ (g = GenStart /\ idx = 0%nat) ->
        (length (Job.output_lines j') - idx + 2 <= fuel)%nat ->
        gen_drain fuel job_id g w' =
          if negb (status_eqb (Job.status j') StRunning)
          then (map data (drop idx (Job.output_lines j'))
                  ++ [done (Job.status j')],
                GenClosed)
          else (map data (drop idx (Job.output_lines j')),
                GenSleep (Nat.max idx (length (Job.output_lines j')))))
  /\ (forall w' g idx,
        get_job w' job_id = None ->
        g = GenSleep idx \/ g = GenStart ->
        gen_resume job_id g w' = (StopAsyncIteration, GenClosed))
  /\ (forall w' j' idx fuel,
        heap w' !! a = Some j' ->
        (length (Job.output_lines j') - S idx + 2 <= fuel)%nat ->
        gen_drain fuel job_id (GenLine a idx) w' =
          if negb (status_eqb (Job.status j') StRunning)
          then (map data (drop (S idx) (Job.output_lines j'))
                  ++ [done (Job.status j')],
                GenClosed)
          else (map data (drop (S idx) (Job.output_lines j')),
                GenSleep (Nat.max (S idx) (length (Job.output_lines j')))))
  /\ (forall L ws,
        Forall (follows a L job_id) ws ->
        delivered (seen_in a ws) 0 L
                  (gen_run job_id GenStart ws).1
                  (gen_run job_id GenStart ws).2)
  /\ (forall l l', data l = data l' -> l = l')
  /\ (forall s s', done s = done s' -> s = s')
  /\ (forall l s, data l <> done s).
Proof.
  intros Hg. cbv zeta. split; [|split; [|split; [|split; [|split]]]].
  - unfold stream_output. now rewrite Hg.
  - intros w' a' j' g idx fuel Hg' Hpc Hf.
    rewrite (gen_drain_poll job_id a' j' w' g idx fuel Hg' Hpc Hf).
    unfold after_lines. destruct (negb _); cbn [fst snd]; [reflexivity|].
    now rewrite app_nil_r.
  - intros w' g idx Hn [->| ->]; cbn [gen_resume]; unfold gen_poll;
      now rewrite Hn.
  - intros w' j' idx fuel Ha Hf.
    rewrite (gen_drain_lines job_id a j' w' Ha
               (length (Job.output_lines j') - S idx) idx fuel) by lia.
    unfold after_lines. destruct (negb _); cbn [fst snd]; [reflexivity|].
    now rewrite app_nil_r.
  - intros L ws Hws. now apply (gen_run_delivered job_id a L ws Hws).
  - split; [|split].
    + intros l l' H. apply app_inv_head in H. now apply app_inv_tail in H.
    + intros s0 s' H. do 3 apply app_inv_head in H.
      apply app_inv_tail in H. now destruct s0, s'.
    + intros l s0 H. discriminate H.
Qed.

(** ** Monotone parts of a job's history *)

Lemma later_refl j : later j j.
Proof. split; [easy|reflexivity]. Qed.

Lemma later_trans j1 j2 j3 : later j1 j2 -> later j2 j3 -> later j1 j3.
Proof. intros [H1 P1] [H2 P2]. split; [auto|]. now transitivity (Job.output_lines j2). Qed.

Lemma heap_later_refl h : heap_later h h.
Proof. intros a j H. exists j. split; [exact H|apply later_refl]. Qed.

Lemma heap_later_trans h1 h2 h3 :
  heap_later h1 h2 -> heap_later h2 h3 -> heap_later h1 h3.
Proof.
  intros H12 H23 a j Ha. destruct (H12 a j Ha) as (j2 & Ha2 & L12).
  destruct (H23 a j2 Ha2) as (j3 & Ha3 & L23).
  exists j3. split; [exact Ha3|]. now apply later_trans with j2.
Qed.

Lemma heap_later_mutate a f w :
  (forall j, later j (f j)) -> heap_later (heap w) (heap (mutate a f w)).
Proof.
  intros Hf b j Hb. rewrite mutate_lookup. case_decide.
  - rewrite Hb. exists (f j). split; [reflexivity|apply Hf].
  - exists j. split; [exact Hb|apply later_refl].
Qed.

Lemma heap_later_update_job job_id f w w' :
  (forall j, later j (f j)) ->
  update_job job_id f w = Some w' -> heap_later (heap w) (heap w').
Proof.
  intros Hf. unfold update_job.
  destruct (get_job w job_id) as [[a j]|]; [|discriminate].
  intros [= <-]. now apply heap_later_mutate.
Qed.

Lemma later_terminal f :
  (forall j, Job.status (f j) <> StRunning) ->
  (forall j, Job.output_lines (f j) = Job.output_lines j) ->
  forall j, later j (f j).
Proof. intros Hs Ho j. split; [auto|]. now rewrite Ho. Qed.

Lemma heap_later_on_exception t e now w :
  heap_later (heap w) (heap (on_exception t e now w).1).
Proof.
  unfold on_exception.
  destruct (update_job _ _ w) as [w'|] eqn:E; cbn [fst];
    [|apply heap_later_refl].
  eapply heap_later_update_job; [|exact E].
  now apply later_terminal.
Qed.

Lemma heap_later_resume t ev now w :
  heap_later (heap w) (heap (resume t ev now w).1).
Proof.
  assert (Hk : forall f pc,
             (forall j, later j (f j)) ->
             heap_later (heap w)
               (heap (or_key_error (update_job (t_job_id t) f w) pc w).1)).
  { intros f pc Hf. destruct (update_job _ f w) as [w'|] eqn:E; cbn [fst];
      [|apply heap_later_refl].
    eapply heap_later_update_job; [exact Hf|exact E]. }
  unfold resume.
  destruct (t_pc t), ev as [p'|[|c l]|[ke|]|ws|e]; cbn [fst];
    try apply heap_later_refl; try apply heap_later_on_exception;
    try apply Hk; try (now apply later_terminal).
  - intros j. split; [easy|reflexivity].
  - apply heap_later_mutate. intros j. split; [easy|].
    cbn. now apply prefix_app_r.
  - apply (heap_later_on_exception t ke now (with_signals _ w)).
Qed.

Lemma heap_later_apply_event w e :
  heap_later (heap w) (heap (apply_event w e)).
Proof.
  destruct e as [req job_id now now'|job_id now|now|tid ev now];
    cbn [apply_event].
  - unfold exec_command. destruct (is_blocked_command _); cbn [fst];
      [apply heap_later_refl|].
    intros a j Ha. exists j. split; [|apply later_refl].
    cbn [heap purge_old_jobs with_jobs]. rewrite lookup_app_l; [exact Ha|].
    now apply lookup_lt_Some in Ha.
  - unfold cancel_job. destruct (get_job w job_id) as [[a j]|];
      [|apply heap_later_refl].
    destruct (negb _); cbn [fst]; [apply heap_later_refl|].
    destruct (Job.process j);
      apply (heap_later_mutate a _ (with_signals _ w)) ||
      apply heap_later_mutate; now apply later_terminal.
  - apply heap_later_refl.
  - unfold run_step. destruct (tasks w !! tid) as [t|]; [|apply heap_later_refl].
    pose proof (heap_later_resume t ev now w) as H.
    now destruct (resume t ev now w).
Qed.

(** Over any sequence of events a job's status never goes back to
    [running] and its output only grows at the end. *)
Lemma history_monotone w es :
  heap_later (heap w) (heap (run_events w es)).
Proof.
  induction es as [|e es IH] using rev_ind; [apply heap_later_refl|].
  unfold run_events. rewrite foldl_snoc.
  eapply heap_later_trans; [exact IH|apply heap_later_apply_event].
Qed.

(** ** Cancellation against the running task *)

(** C1 (fails on the code).  A job is submitted, its child [1] is
    spawned, and the job is cancelled: [kill()] goes to the child and the
    status is [cancelled].  The killed child's output then ends and the
    child is reaped, upon which the task, which never looks at the
    status, records a normal end: the job that was [cancelled] is now
    [finished], with the signal's return code. *)
Theorem cancelled_then_finished :
  let w1 := run_events empty_world
              [Exec slow_request job1 0 0; Resume 0 (Spawned 1%nat) 1;
               Cancel job1 2] in
  let w2 := run_events w1
              [Resume 0 (Readline []) 30;
               Resume 0 (Exited (WSIGNALED 9)) 30] in
  status_of w1 job1 = Some StCancelled
  /\ signals w1 = [1%nat]
  /\ status_of w2 job1 = Some StFinished
  /\ result job1 w2 =
       Ok {| rb_job_id := job1; rb_status := u"finished";
             rb_stdout := []; rb_stderr := [];
             rb_returncode := Some (-9); rb_error := None |}.
Proof. vm_compute. repeat split. Qed.

(** C2 (fails on the code).  A job is cancelled while its child is still
    being spawned.  The spawn completes, the child runs, and the task
    appends the child's line to the output of the job, whose status has
    been [cancelled] all along. *)
Theorem cancelled_output_still_grows :
  let w1 := run_events empty_world
              [Exec slow_request job1 0 0; Cancel job1 1] in
  let w2 := run_events w1
              [Resume 0 (Spawned 1%nat) 2;
               Resume 0 (Readline (u"done" ++ NL)) 32] in
  status_of w1 job1 = Some StCancelled
  /\ output_of w1 job1 = Some []
  /\ status_of w2 job1 = Some StCancelled
  /\ output_of w2 job1 = Some [u"done" ++ NL].
Proof. vm_compute. repeat split. Qed.

(** C3 (fails on the code).  A job has produced one line when it is
    cancelled, or when reading from its child fails.  In both cases the
    job is terminal and its [output_lines] hold the line, but the
    [update] that ended it wrote no [stdout], and [result] answers with
    an empty [stdout]. *)
Theorem terminal_result_without_output :
  let w0 := run_events empty_world
              [Exec chatty_request job1 0 0; Resume 0 (Spawned 1%nat) 1;
               Resume 0 (Readline (u"partial" ++ NL)) 2] in
  let wc := run_events w0 [Cancel job1 3] in
  let we := run_events w0
              [Resume 0 (Raise (u"Separator is not found, and chunk exceed the limit")) 3] in
  output_of wc job1 = Some [u"partial" ++ NL]
  /\ result job1 wc =
       Ok {| rb_job_id := job1; rb_status := u"cancelled";
             rb_stdout := []; rb_stderr := [];
             rb_returncode := None; rb_error := None |}
  /\ output_of we job1 = Some [u"partial" ++ NL]
  /\ result job1 we =
       Ok {| rb_job_id := job1; rb_status := u"error";
             rb_stdout := []; rb_stderr := [];
             rb_returncode := None;
             rb_error :=
               Some (u"Separator is not found, and chunk exceed the limit") |}.
Proof. vm_compute. repeat split. Qed.

(** ** Worked scenarios *)

(** The gate on a few commands. *)
Lemma is_blocked_command_examples :
  is_blocked_command (u"rm -rf /") =
    Some (u"Blocked: command matches dangerous pattern (^(sudo\s+)?rm\s+(-[a-z]*f[a-z]*\s+)?/\s*$)")
  /\ is_blocked_command (9%N :: u" SUDO   rm  -Rf  /  ") <> None
  /\ is_blocked_command (u"ls -laR /") =
       Some (u"Blocked: command matches dangerous pattern (^(sudo\s+)?ls\s+(-[a-z]*r[a-z]*))")
  /\ is_blocked_command (u"rm -rf /home") = None
  /\ is_blocked_command (u"ls -la") = None
  /\ is_blocked_command (u"echo rm -rf /") = None
  /\ normalize (9%N :: u"  ls   -la  " ++ [160%N; 10%N]) = u"ls -la".
Proof. vm_compute. repeat split; discriminate. Qed.

(** C4, the claim as worded fails: the job of [w_done] has been finished
    for more than an hour when a command on the deny-list is submitted.
    The submission is rejected, and the registry is not what it was: the
    old job has gone from it. *)
Lemma rejected_submission_sweeps_registry :
  let after := exec_command rm_root job2 3700 3700 w_done in
  is_blocked_command (command rm_root) <> None
  /\ (exists reason, after.2 = HTTPException 400 reason)
  /\ jobs after.1 <> jobs w_done
  /\ get_job w_done job1 = Some (0%nat, j_done)
  /\ get_job after.1 job1 = None.
Proof.
  cbv zeta. split; [vm_compute; discriminate|].
  split; [eexists; vm_compute; reflexivity|].
  split; [|split; vm_compute; reflexivity].
  intros H.
  assert (H' : jobs (exec_command rm_root job2 3700 3700 w_done).1 !! job1
               = jobs w_done !! job1) by now rewrite H.
  vm_compute in H'. discriminate.
Qed.


Lemma exec_command_rejects_blocked_witness :
  let '(w', answer) := exec_command rm_root job2 3700 3700 w_done in
  answer = HTTPException 400
             (u"Blocked: command matches dangerous pattern (^(sudo\s+)?rm\s+(-[a-z]*f[a-z]*\s+)?/\s*$)")
  /\ w' = purge_old_jobs 3700 w_done
  /\ heap w' = heap w_done /\ tasks w' = tasks w_done
  /\ signals w' = signals w_done
  /\ (forall jid,
        get_job w' jid = None \/ get_job w' jid = get_job w_done jid)
  /\ (forall jid a j,
        get_job w_done jid = Some (a, j) -> expired 3700 j = false ->
        get_job w' jid = Some (a, j)).
Proof.
  apply (exec_command_rejects_blocked rm_root job2 3700 3700 w_done).
  vm_compute. reflexivity.
Defined.


Lemma cancel_job_not_running_witness :
  get_job w_done job1 = Some (0%nat, j_done)
  /\ cancel_job job1 99 w_done = (w_done, Ok (u"Job is already finished")).
Proof.
  split; [reflexivity|].
  apply (cancel_job_not_running job1 0 j_done 99 w_done);
    [reflexivity|discriminate].
Defined.

Lemma purge_old_jobs_exact_witness :
  reachable w_done
  /\ get_job (purge_old_jobs 3602 w_done) job1 = None
  /\ get_job (purge_old_jobs 3601 w_done) job1 = Some (0%nat, j_done).
Proof.
  assert (Hr : reachable w_done) by (eexists; reflexivity).
  split; [exact Hr|]. split.
  - destruct (purge_old_jobs_exact 3602 w_done Hr) as (H & _).
    destruct (H job1 0%nat j_done eq_refl) as [Hiff _]. apply Hiff.
    split; [discriminate|]. exists 1. split; [reflexivity|lia].
  - destruct (purge_old_jobs_exact 3601 w_done Hr) as (H & _).
    destruct (H job1 0%nat j_done eq_refl) as [_ Hkeep]. apply Hkeep.
    vm_compute. discriminate.
Defined.

Lemma stream_output_follows_witness :
  stream_output job1 w_done = Ok GenStart
  /\ gen_drain 3 job1 GenStart w_done =
       ([u"data: hello" ++ NL ++ NL;
         u"event: done" ++ NL ++ u"data: finished" ++ NL ++ NL], GenClosed)
  /\ gen_drain 3 job1 GenStart w_reading =
       ([u"data: partial" ++ NL ++ NL], GenSleep 1).
Proof.
  destruct (stream_output_follows job1 0 j_done w_done eq_refl)
    as (H404 & Hdrain & _).
  split; [exact H404|]. split.
  - assert (Hg : get_job w_done job1 = Some (0%nat, j_done)) by reflexivity.
    assert (Hf : (length (Job.output_lines j_done) - 0 + 2 <= 3)%nat)
      by (vm_compute; lia).
    rewrite (Hdrain w_done 0%nat j_done GenStart 0%nat 3%nat Hg
               (or_intror (conj eq_refl eq_refl)) Hf).
    reflexivity.
  - assert (Hg : get_job w_reading job1 = Some (0%nat, j_reading))
      by reflexivity.
    assert (Hf : (length (Job.output_lines j_reading) - 0 + 2 <= 3)%nat)
      by (vm_compute; lia).
    rewrite (Hdrain w_reading 0%nat j_reading GenStart 0%nat 3%nat Hg
               (or_intror (conj eq_refl eq_refl)) Hf).
    reflexivity.
Defined.

Lemma cancel_job_before_spawn_witness :
  let '(w', answer) := cancel_job job1 5 w_new in
  answer = Ok (u"Job cancelled")
  /\ signals w' = []
  /\ status_of w' job1 = Some StCancelled
  /\ signals (run_step 0 (Spawned 1%nat) 6 w') = []
  /\ t_pc <$> tasks (run_step 0 (Spawned 1%nat) 6 w') !! 0%nat
     = Some (AwaitReadline 1%nat).
Proof.
  pose proof (cancel_job_before_spawn job1 0 j_new 5 w_new
                eq_refl eq_refl eq_refl) as H.
  destruct (cancel_job job1 5 w_new) as [w' answer] eqn:E.
  destruct H as (Ha & Hs & Ht & Hg & Hnext).
  split; [exact Ha|]. split; [exact Hs|].
  split; [unfold status_of; now rewrite Hg|].
  assert (Htask : tasks w' !! 0%nat =
                  Some {| t_req := slow_request; t_job_id := job1;
                          t_output_lines := 0%nat; t_pc := AwaitSpawn |})
    by (rewrite Ht; reflexivity).
  destruct (Hnext 0%nat _ 1%nat 6 Htask eq_refl eq_refl) as (Hs' & Hpc & _).
  split; [exact Hs'|exact Hpc].
Defined.

(* ===================================================================== *)
(** * Further properties *)
(* ===================================================================== *)

(** ** The gate *)

Lemma isspace_bounds c : isspace c = true -> (c <= 32 \/ 133 <= c)%N.
Proof.
  unfold isspace.
  rewrite !orb_true_iff, !andb_true_iff, !N.leb_le, !N.eqb_eq. lia.
Qed.

Lemma ascii_letter_bounds x :
  ascii_letter x = true <-> (65 <= x <= 90 \/ 97 <= x <= 122)%N.
Proof.
  unfold ascii_letter. rewrite orb_true_iff, !andb_true_iff, !N.leb_le. tauto.
Qed.

Lemma ascii_lower_spec x :
  (65 <= x <= 90 /\ ascii_lower x = x + 32)%N
  \/ (~ (65 <= x <= 90)%N /\ ascii_lower x = x).
Proof.
  unfold ascii_lower.
  destruct ((65 <=? x) && (x <=? 90))%N eqn:E.
  - left. apply andb_true_iff in E. rewrite !N.leb_le in E. tauto.
  - right. apply andb_false_iff in E. rewrite !N.leb_gt in E.
    split; [lia|reflexivity].
Qed.

Lemma isspace_ascii_lower x : isspace (ascii_lower x) = isspace x.
Proof.
  destruct (ascii_lower_spec x) as [[Hx ->]|[_ ->]]; [|reflexivity].
  destruct (isspace x) eqn:E1; [apply isspace_bounds in E1; lia|].
  destruct (isspace (x + 32)) eqn:E2; [apply isspace_bounds in E2; lia|].
  reflexivity.
Qed.

Lemma lower_ascii_ascii_lower x : lower_ascii (ascii_lower x) = lower_ascii x.
Proof.
  destruct (ascii_lower_spec x) as [[Hx ->]|[_ ->]]; [|reflexivity].
  unfold lower_ascii.
  replace ((97 <=? x + 32) && (x + 32 <=? 122))%N with true
    by (symmetry; apply andb_true_iff; rewrite !N.leb_le; lia).
  replace ((97 <=? x) && (x <=? 122))%N with false
    by (symmetry; apply andb_false_iff; rewrite !N.leb_gt; lia).
  replace ((65 <=? x) && (x <=? 90))%N with true
    by (symmetry; apply andb_true_iff; rewrite !N.leb_le; lia).
  reflexivity.
Qed.

Lemma eqb_ascii_lower x c :
  ascii_letter c = false -> (ascii_lower x =? c)%N = (x =? c)%N.
Proof.
  intros Hc.
  assert (Hn : ~ (65 <= c <= 90 \/ 97 <= c <= 122)%N).
  { rewrite <- ascii_letter_bounds. congruence. }
  destruct (ascii_lower_spec x) as [[Hx ->]|[_ ->]]; [|reflexivity].
  destruct (N.eqb_spec (x + 32) c), (N.eqb_spec x c); try reflexivity; lia.
Qed.

Lemma existsb_eqb_ascii_lower x l :
  (forall y, In y l -> (256 <= y)%N) ->
  existsb (N.eqb (ascii_lower x)) l = existsb (N.eqb x) l.
Proof.
  intros Hl. destruct (ascii_lower_spec x) as [[Hx E]|[_ ->]]; [|reflexivity].
  rewrite E. induction l as [|y l IH]; [reflexivity|]. cbn [existsb].
  rewrite IH by (intros; apply Hl; now right).
  specialize (Hl y ltac:(now left)).
  destruct (N.eqb_spec (x + 32) y), (N.eqb_spec x y); try reflexivity; lia.
Qed.

Lemma charset_match_ascii_lower cs x :
  caseless (IN cs) = true ->
  charset_match cs (ascii_lower x) = charset_match cs x.
Proof.
  destruct cs as [c|c|lo hi|]; cbn [caseless charset_match]; intros Hc.
  - apply eqb_ascii_lower. now apply negb_true_iff.
  - rewrite lower_ascii_ascii_lower. destruct (lower_ascii x); [reflexivity|].
    apply existsb_eqb_ascii_lower. intros y. unfold ignorecase_fixes.
    destruct (c =? 105)%N; [|destruct (c =? 115)%N]; cbn; intuition (subst; lia).
  - rewrite lower_ascii_ascii_lower. destruct (lower_ascii x); [reflexivity|].
    cbn [existsb]. f_equal; [|f_equal];
      (f_equal; apply existsb_eqb_ascii_lower; cbn; intuition (subst; lia)).
  - apply isspace_ascii_lower.
Qed.

Lemma matches_MAX_REPEAT r pos s k :
  matches (MAX_REPEAT r) pos s k = star_loop (matches r) k (length s) pos s.
Proof. reflexivity. Qed.

Lemma star_loop_ascii_lower m m' k k' :
  (forall pos s c c',
      (forall p t, c' p (map ascii_lower t) = c p t) ->
      m' pos (map ascii_lower s) c' = m pos s c) ->
  (forall p t, k' p (map ascii_lower t) = k p t) ->
  forall fuel pos s,
    star_loop m' k' fuel pos (map ascii_lower s) = star_loop m k fuel pos s.
Proof.
  intros Hm Hk. induction fuel as [|fuel IH]; intros pos s; cbn [star_loop];
    (f_equal; [|apply Hk]); apply Hm; intros p t; rewrite !length_map;
    destruct (Nat.ltb _ _); auto.
Qed.

(** Matching does not tell a command from its lower-cased form. *)
Lemma matches_ascii_lower r :
  caseless r = true ->
  forall pos s k k',
    (forall p t, k' p (map ascii_lower t) = k p t) ->
    matches r pos (map ascii_lower s) k' = matches r pos s k.
Proof.
  induction r as [| | |cs|r1 IH1 r2 IH2|r1 IH1|r1 IH1]; intros Hc pos s k k' Hk.
  - apply Hk.
  - cbn [matches]. destruct (Nat.eqb pos 0); [apply Hk|reflexivity].
  - cbn [matches]. destruct s as [|c [|c' t]]; cbn [map].
    + apply (Hk pos []).
    + rewrite <- (Hk pos [c]). cbn [map].
      destruct (ascii_lower_spec c) as [[Hx E]|[_ E]]; rewrite E;
        [|reflexivity].
      destruct (N.eqb_spec (c + 32) 10), (N.eqb_spec c 10);
        first [lia|reflexivity].
    + reflexivity.
  - cbn [matches]. destruct s as [|c t]; cbn [map]; [reflexivity|].
    rewrite (charset_match_ascii_lower cs c Hc).
    destruct (charset_match cs c); [apply Hk|reflexivity].
  - cbn [caseless] in Hc. apply andb_true_iff in Hc as [Hc1 Hc2].
    cbn [matches]. apply IH1; [exact Hc1|]. intros p t. now apply IH2.
  - cbn [caseless] in Hc. cbn [matches]. f_equal; [now apply IH1|apply Hk].
  - cbn [caseless] in Hc. rewrite !matches_MAX_REPEAT, length_map.
    apply star_loop_ascii_lower; [|exact Hk].
    intros pos' s' c c' Hcc. now apply IH1.
Qed.

Lemma search_from_ascii_lower r pos s :
  caseless r = true ->
  search_from r pos (map ascii_lower s) = search_from r pos s.
Proof.
  intros Hc. revert pos. induction s as [|c t IH]; intros pos; cbn [map search_from].
  - reflexivity.
  - f_equal; [|apply IH]. now apply (matches_ascii_lower r Hc pos (c :: t)).
Qed.

Lemma lstrip_ascii_lower s : lstrip (map ascii_lower s) = map ascii_lower (lstrip s).
Proof.
  induction s as [|c t IH]; [reflexivity|]. cbn [map lstrip].
  rewrite isspace_ascii_lower. now destruct (isspace c).
Qed.

Lemma strip_ascii_lower s : strip (map ascii_lower s) = map ascii_lower (strip s).
Proof.
  unfold strip, rstrip.
  now rewrite lstrip_ascii_lower, <- map_rev, lstrip_ascii_lower, map_rev.
Qed.

Lemma sub_spaces_ascii_lower b s :
  sub_spaces b (map ascii_lower s) = map ascii_lower (sub_spaces b s).
Proof.
  revert b. induction s as [|c t IH]; intros b; [reflexivity|].
  cbn [map sub_spaces]. rewrite isspace_ascii_lower.
  destruct (isspace c); [destruct b|]; cbn [map]; now rewrite IH.
Qed.

Lemma normalize_ascii_lower s :
  normalize (map ascii_lower s) = map ascii_lower (normalize s).
Proof. unfold normalize. now rewrite strip_ascii_lower, sub_spaces_ascii_lower. Qed.

Lemma first_blocking_ascii_lower patterns cmd :
  forallb (fun p => caseless (code p)) patterns = true ->
  first_blocking patterns (map ascii_lower cmd) = first_blocking patterns cmd.
Proof.
  induction patterns as [|p rest IH]; [reflexivity|]. cbn [forallb first_blocking].
  intros [Hp Hr]%andb_true_iff. unfold search.
  rewrite (search_from_ascii_lower _ _ _ Hp), (IH Hr). reflexivity.
Qed.

Lemma is_blocked_command_ascii_lower c :
  is_blocked_command (map ascii_lower c) = is_blocked_command c.
Proof.
  unfold is_blocked_command. rewrite normalize_ascii_lower.
  now apply first_blocking_ascii_lower.
Qed.

(** X1.  The gate does not look at the case of ASCII letters: two
    commands that agree once their ASCII capitals are lower-cased get the
    same answer, the same reason or [None] alike. *)
Theorem is_blocked_command_ignores_case (c1 c2 : str) :
  map ascii_lower c1 = map ascii_lower c2 ->
  is_blocked_command c1 = is_blocked_command c2.
Proof.
  intros H.
  now rewrite <- (is_blocked_command_ascii_lower c1), H,
    is_blocked_command_ascii_lower.
Qed.

Lemma is_blocked_command_ignores_case_witness :
  is_blocked_command (u"Sudo RM -Rf /") = is_blocked_command (u"sudo rm -rF /").
Proof.
  apply (is_blocked_command_ignores_case (u"Sudo RM -Rf /") (u"sudo rm -rF /")).
  reflexivity.
Defined.

Lemma words_nonspace c t :
  isspace c = false ->
  words (c :: t) =
  match t with
  | [] => [[c]]
  | c' :: _ => if isspace c' then [c] :: words t else cons_head c (words t)
  end.
Proof. intros Hc. cbn [words]. now rewrite Hc. Qed.

Lemma words_word_app w rest :
  solid_word w ->
  (rest = [] \/ exists c r, rest = c :: r /\ isspace c = true) ->
  words (w ++ rest) = w :: words rest.
Proof.
  intros [Hne Hs] Hrest. induction w as [|c w IH]; [congruence|]. clear Hne.
  cbn [forallb] in Hs. apply andb_true_iff in Hs as [Hc Hs].
  apply negb_true_iff in Hc. cbn [app]. rewrite (words_nonspace _ _ Hc).
  destruct w as [|c' w'].
  - cbn [app]. destruct Hrest as [->|(x & r & -> & Hx)]; [reflexivity|].
    now rewrite Hx.
  - cbn [app]. pose proof Hs as Hs'. cbn [forallb] in Hs'.
    apply andb_true_iff in Hs' as [Hc' _]. apply negb_true_iff in Hc'.
    rewrite Hc'. change (c' :: w' ++ rest) with ((c' :: w') ++ rest).
    rewrite IH; [reflexivity|discriminate|exact Hs].
Qed.

Lemma words_solid s : Forall solid_word (words s).
Proof.
  induction s as [|c t IH]; [constructor|]. cbn [words].
  destruct (isspace c) eqn:Ec; [exact IH|].
  assert (Hc : solid_word [c]).
  { split; [discriminate|]. cbn. now rewrite Ec. }
  destruct t as [|c' t']; [now constructor|].
  destruct (isspace c'); [now constructor|].
  destruct (words (c' :: t')) as [|w ws]; cbn [cons_head]; [now constructor|].
  inversion IH as [|? ? [Hw1 Hw2] Hws]; subst. constructor; [|exact Hws].
  split; [discriminate|]. cbn [forallb]. now rewrite Ec, Hw2.
Qed.

Lemma words_unwords ws : Forall solid_word ws -> words (unwords ws) = ws.
Proof.
  induction 1 as [|w ws Hw Hws IH]; [reflexivity|]. cbn [unwords].
  destruct ws as [|w' ws'].
  - rewrite words_word_app; [reflexivity|exact Hw|now left].
  - rewrite words_word_app; [|exact Hw|right; eexists _, _; split; reflexivity].
    f_equal. exact IH.
Qed.

(** X2.  The gate sees a command only through its words: commands that
    differ in nothing but the white space around and between their words
    get the same answer. *)
Theorem is_blocked_command_by_words (c1 c2 : str) :
  words c1 = words c2 ->
  is_blocked_command c1 = is_blocked_command c2.
Proof.
  intros H. unfold is_blocked_command. now rewrite !normalize_words, H.
Qed.

Lemma is_blocked_command_by_words_witness :
  is_blocked_command (9%N :: u"rm   -rf" ++ [10%N; 47%N; 160%N])
  = is_blocked_command (u"rm -rf /").
Proof.
  apply (is_blocked_command_by_words
           (9%N :: u"rm   -rf" ++ [10%N; 47%N; 160%N]) (u"rm -rf /")).
  reflexivity.
Defined.

Lemma words_normalize s : words (normalize s) = words s.
Proof. rewrite normalize_words. apply words_unwords, words_solid. Qed.

(** X3.  Normalising is idempotent, keeps the words of the command, and
    a command already normalised gets the answer of the original. *)
Theorem normalize_idempotent (s : str) :
  normalize (normalize s) = normalize s
  /\ words (normalize s) = words s
  /\ is_blocked_command (normalize s) = is_blocked_command s.
Proof.
  assert (Hn : normalize (normalize s) = normalize s)
    by now rewrite (normalize_words (normalize s)), words_normalize,
                   normalize_words.
  split; [exact Hn|]. split; [apply words_normalize|].
  unfold is_blocked_command. now rewrite Hn.
Qed.

(** ** Submission, accepted *)

Lemma exec_command_new_job
      (req : CommandRequest) (job_id : str) (now now' : time) (w : world) :
  is_blocked_command (command req) = None ->
  let '(w', answer) := exec_command req job_id now now' w in
  let a := length (heap w) in
  answer = Ok job_id
  /\ get_job w' job_id =
       Some (a, Job.mk StRunning (command req) (cwd req) now' [] None
                       None None None None None)
  /\ heap w' = heap w ++ [Job.create (command req) (cwd req) now']
  /\ tasks w' = tasks w ++ [{| t_req := req; t_job_id := job_id;
                               t_output_lines := a; t_pc := AwaitSpawn |}]
  /\ signals w' = signals w
  /\ jobs w' = <[job_id := a]> (jobs (purge_old_jobs now w)).
Proof.
  intros Hb. unfold exec_command. rewrite Hb. cbv zeta.
  split; [reflexivity|]. split; [|now repeat split].
  unfold get_job. cbn [jobs heap purge_old_jobs with_jobs].
  rewrite lookup_insert_eq. now rewrite list_lookup_middle.
Qed.

(** X4.  A submission whose command passes the gate answers with the id
    drawn for it, and the new job can be asked about at once: [status]
    says [running] with the command as submitted, [result] has an empty
    [stdout], no [returncode] and no [error].  One dictionary and one
    task, waiting for the spawn, have been added behind the existing
    ones; no child has been signalled; the id is bound to the new
    dictionary in the registry the sweep left, whatever it was bound to
    before; the job count grows by one if the id is new. *)
Theorem exec_command_accepts
        (req : CommandRequest) (job_id : str) (now now' : time) (w : world) :
  is_blocked_command (command req) = None ->
  let '(w', answer) := exec_command req job_id now now' w in
  let a := length (heap w) in
  answer = Ok job_id
  /\ get_job w' job_id =
       Some (a, Job.mk StRunning (command req) (cwd req) now' [] None
                       None None None None None)
  /\ status job_id w' =
       Ok {| sb_job_id := job_id; sb_status := u"running";
             sb_command := command req |}
  /\ result job_id w' =
       Ok {| rb_job_id := job_id; rb_status := u"running";
             rb_stdout := []; rb_stderr := [];
             rb_returncode := None; rb_error := None |}
  /\ heap w' = heap w ++ [Job.create (command req) (cwd req) now']
  /\ tasks w' = tasks w ++ [{| t_req := req; t_job_id := job_id;
                               t_output_lines := a; t_pc := AwaitSpawn |}]
  /\ signals w' = signals w
  /\ jobs w' = <[job_id := a]> (jobs (purge_old_jobs now w))
  /\ (jobs (purge_old_jobs now w) !! job_id = None ->
      forall t, hb_jobs_count (health t w')
                = S (hb_jobs_count (health t (purge_old_jobs now w)))).
Proof.
  intros Hb. pose proof (exec_command_new_job req job_id now now' w Hb) as H.
  destruct (exec_command req job_id now now' w) as [w' answer].
  cbv zeta in *. destruct H as (Ha & Hg & Hh & Ht & Hs & Hj).
  split; [exact Ha|]. split; [exact Hg|].
  split; [unfold status; now rewrite Hg|].
  split; [unfold result; now rewrite Hg|].
  split; [exact Hh|]. split; [exact Ht|]. split; [exact Hs|].
  split; [exact Hj|].
  intros Hfresh t. cbn [health hb_jobs_count]. rewrite Hj.
  now apply map_size_insert_None.
Qed.

Lemma exec_command_accepts_witness :
  let '(w', answer) := exec_command quick_request job2 5 5 w_done in
  answer = Ok job2
  /\ status job2 w' =
       Ok {| sb_job_id := job2; sb_status := u"running";
             sb_command := u"echo hello" |}
  /\ hb_jobs_count (health 5 w') = 2%nat.
Proof.
  pose proof (exec_command_accepts quick_request job2 5 5 w_done eq_refl) as H.
  destruct (exec_command quick_request job2 5 5 w_done) as [w' answer].
  destruct H as (Ha & _ & Hs & _ & _ & _ & _ & _ & Hc).
  split; [exact Ha|]. split; [exact Hs|].
  rewrite Hc; reflexivity.
Defined.

(** ** Jobs that are gone *)

(** X5.  Once the sweep of a listing has removed a job (terminal, and
    finished more than 3600 before), every request that names its id is
    answered 404 ["Job not found"]: [status], [result], [cancel_job],
    which changes nothing, and [stream_output].  The dictionary itself
    is untouched; only the registry no longer leads to it. *)
Theorem swept_job_not_found
        (job_id : str) (a : addr) (j : Job.t) (f now now' : time) (w : world) :
  get_job w job_id = Some (a, j) ->
  Job.status j <> StRunning ->
  Job.finished_at j = Some f ->
  now - f > 3600 ->
  let w' := (list_jobs now w).1 in
  status job_id w' = HTTPException 404 (u"Job not found")
  /\ result job_id w' = HTTPException 404 (u"Job not found")
  /\ cancel_job job_id now' w' = (w', HTTPException 404 (u"Job not found"))
  /\ stream_output job_id w' = HTTPException 404 (u"Job not found")
  /\ heap w' !! a = Some j.
Proof.
  intros Hg Hs Hf Hold. cbv zeta.
  assert (Hn : get_job (list_jobs now w).1 job_id = None).
  { unfold list_jobs. cbn [fst]. rewrite get_job_purge, Hg.
    assert (He : expired now j = true) by (apply expired_spec; eauto).
    now rewrite He. }
  unfold status, result, cancel_job, stream_output. rewrite Hn.
  repeat split. unfold get_job in Hg. cbn [list_jobs fst heap purge_old_jobs with_jobs].
  destruct (jobs w !! job_id) as [b|]; [|discriminate].
  destruct (heap w !! b) eqn:E; [|discriminate]. now injection Hg as -> ->.
Qed.

Lemma swept_job_not_found_witness :
  get_job w_done job1 = Some (0%nat, j_done)
  /\ status job1 (list_jobs 3700 w_done).1
     = HTTPException 404 (u"Job not found")
  /\ stream_output job1 (list_jobs 3700 w_done).1
     = HTTPException 404 (u"Job not found").
Proof.
  assert (Hg : get_job w_done job1 = Some (0%nat, j_done)) by reflexivity.
  assert (Hs : Job.status j_done <> StRunning) by discriminate.
  assert (Hold : 3700 - 1 > 3600) by lia.
  destruct (swept_job_not_found job1 0 j_done 1 3700 3700 w_done
              Hg Hs eq_refl Hold) as (H1 & _ & _ & H4 & _).
  split; [exact Hg|]. split; [exact H1|exact H4].
Defined.

(** ** Cancelling twice *)

(** X6.  A second [cancel_job] for the same id never changes anything:
    the world after the second request is the world after the first, so
    no second [kill()] is issued and [finished_at] keeps the time of the
    first.  The first request calls [kill()] at most once.  If the id
    names a job, the second answer is ["Job is already ..."] with the
    status the first request left: [cancelled] if the job was running,
    its own status otherwise. *)
Theorem cancel_job_twice (job_id : str) (now now' : time) (w : world) :
  let w1 := (cancel_job job_id now w).1 in
  (cancel_job job_id now' w1).1 = w1
  /\ (length (signals w1) <= S (length (signals w)))%nat
  /\ (forall a j,
        get_job w job_id = Some (a, j) ->
        (cancel_job job_id now' w1).2 =
          Ok (u"Job is already "
              ++ status_str (if status_eqb (Job.status j) StRunning
                             then StCancelled else Job.status j))).
Proof.
  cbv zeta.
  destruct (get_job w job_id) as [[a j]|] eqn:Hg.
  - destruct (status_eqb (Job.status j) StRunning) eqn:Es.
    + set (w0 := match Job.process j with
                 | Some p => with_signals (signals w ++ [p]) w
                 | None => w
                 end).
      set (w1 := mutate a (Job.update_cancelled now) w0).
      assert (H1 : cancel_job job_id now w = (w1, Ok (u"Job cancelled")))
        by (unfold cancel_job; now rewrite Hg, Es).
      assert (Hg0 : get_job w0 job_id = Some (a, j))
        by (subst w0; now destruct (Job.process j)).
      assert (Hg1 : get_job w1 job_id = Some (a, Job.update_cancelled now j)).
      { subst w1. rewrite get_job_mutate, Hg0. now rewrite decide_True. }
      assert (H2 : cancel_job job_id now' w1
                   = (w1, Ok (u"Job is already " ++ status_str StCancelled)))
        by (unfold cancel_job; now rewrite Hg1).
      rewrite H1. cbn [fst]. rewrite H2. cbn [fst snd].
      split; [reflexivity|]. split.
      * subst w1 w0. rewrite mutate_signals.
        destruct (Job.process j); cbn [signals with_signals];
          [rewrite length_app; cbn; lia|lia].
      * intros a' j' [= <- <-]. now rewrite Es.
    + assert (H1 : cancel_job job_id now w
                   = (w, Ok (u"Job is already " ++ status_str (Job.status j))))
        by (unfold cancel_job; now rewrite Hg, Es).
      assert (H2 : cancel_job job_id now' w
                   = (w, Ok (u"Job is already " ++ status_str (Job.status j))))
        by (unfold cancel_job; now rewrite Hg, Es).
      rewrite H1. cbn [fst]. rewrite H2. cbn [fst snd].
      split; [reflexivity|]. split; [lia|].
      intros a' j' [= <- <-]. now rewrite Es.
  - assert (H1 : forall t, cancel_job job_id t w
                           = (w, HTTPException 404 (u"Job not found")))
      by (intros t; unfold cancel_job; now rewrite Hg).
    rewrite !H1. cbn [fst]. rewrite ?H1.
    split; [reflexivity|]. split; [lia|]. intros a j [=].
Qed.

(** ** Failures inside the task *)

(** X7.  When the call a task is waiting for raises, be it the spawn,
    a read or a wait, and the task's job is registered, the failure does
    not leave the task: the task returns, having set the job's [status]
    to [error], its [error] to the exception's text and [finished_at] to
    the time of the failure.  The lines captured so far stay in
    [output_lines]; [stdout], [stderr] and [returncode] are not written;
    no child is signalled and no other dictionary is touched. *)
Theorem run_records_failure
        (tid : nat) (t : task) (a : addr) (j : Job.t) (e : str)
        (now : time) (w : world) :
  tasks w !! tid = Some t ->
  awaiting (t_pc t) = true ->
  get_job w (t_job_id t) = Some (a, j) ->
  let w' := run_step tid (Raise e) now w in
  get_job w' (t_job_id t) =
    Some (a, Job.mk StError (Job.command j) (Job.cwd j) (Job.created_at j)
                    (Job.output_lines j) (Job.process j) (Job.stdout j)
                    (Job.stderr j) (Job.returncode j) (Some e) (Some now))
  /\ t_pc <$> tasks w' !! tid = Some Returned
  /\ signals w' = signals w
  /\ jobs w' = jobs w
  /\ (forall b, b <> a -> heap w' !! b = heap w !! b).
Proof.
  intros Ht Hpc Hg. cbv zeta.
  destruct (run_step_pc tid t (Raise e) now w Ht) as (Hp & Hh & Hj & Hs).
  assert (Hr : resume t (Raise e) now w
               = (mutate a (Job.update_error e now) w, Returned)).
  { unfold resume. destruct (t_pc t); try discriminate;
      now apply (on_exception_registered t e now w a j). }
  rewrite Hr in *. cbn [fst snd] in *.
  split.
  { unfold get_job. rewrite Hj, Hh. fold (get_job (mutate a (Job.update_error e now) w) (t_job_id t)).
    rewrite get_job_mutate, Hg. now rewrite decide_True. }
  split; [exact Hp|]. split; [now rewrite Hs, mutate_signals|].
  split; [now rewrite Hj, mutate_jobs|].
  intros b Hb. rewrite Hh, mutate_lookup. now rewrite decide_False.
Qed.

Lemma run_records_failure_witness :
  let w' := run_step 0 (Raise (u"boom")) 3 w_reading in
  status_of w' job1 = Some StError
  /\ output_of w' job1 = Some [u"partial" ++ NL]
  /\ t_pc <$> tasks w' !! 0%nat = Some Returned.
Proof.
  assert (Ht : tasks w_reading !! 0%nat = Some t_reading) by reflexivity.
  assert (Hg : get_job w_reading (t_job_id t_reading) = Some (0%nat, j_reading))
    by reflexivity.
  destruct (run_records_failure 0 t_reading 0 j_reading (u"boom") 3 w_reading
              Ht eq_refl Hg) as (H1 & H2 & _).
  cbv zeta. unfold status_of, output_of.
  change job1 with (t_job_id t_reading). rewrite H1.
  split; [reflexivity|]. split; [reflexivity|exact H2].
Defined.

(** X8.  If [proc.kill()] raises in the timeout branch, the job is not
    recorded as timed out: the exception reaches the task's handler,
    which records [error] with the exception's text, and the task
    returns without waiting for the child.  [kill()] has been called on
    the child. *)
Theorem timeout_kill_failure_is_error
        (tid : nat) (t : task) (p : proc) (a : addr) (j : Job.t) (e : str)
        (now : time) (w : world) :
  tasks w !! tid = Some t ->
  t_pc t = AwaitReadline p ->
  get_job w (t_job_id t) = Some (a, j) ->
  let w' := run_step tid (TimedOut (Some e)) now w in
  get_job w' (t_job_id t) =
    Some (a, Job.mk StError (Job.command j) (Job.cwd j) (Job.created_at j)
                    (Job.output_lines j) (Job.process j) (Job.stdout j)
                    (Job.stderr j) (Job.returncode j) (Some e) (Some now))
  /\ t_pc <$> tasks w' !! tid = Some Returned
  /\ signals w' = signals w ++ [p].
Proof.
  intros Ht Hpc Hg. cbv zeta.
  destruct (run_step_pc tid t (TimedOut (Some e)) now w Ht) as (Hp & Hh & Hj & Hs).
  assert (Hr : resume t (TimedOut (Some e)) now w
               = (mutate a (Job.update_error e now)
                         (with_signals (signals w ++ [p]) w), Returned)).
  { unfold resume. rewrite Hpc.
    now apply (on_exception_registered t e now (with_signals _ w) a j). }
  rewrite Hr in *. cbn [fst snd] in *.
  split.
  { unfold get_job. rewrite Hj, Hh.
    fold (get_job (mutate a (Job.update_error e now)
                          (with_signals (signals w ++ [p]) w)) (t_job_id t)).
    rewrite get_job_mutate.
    change (get_job (with_signals (signals w ++ [p]) w) (t_job_id t))
      with (get_job w (t_job_id t)).
    rewrite Hg. now rewrite decide_True. }
  split; [exact Hp|]. now rewrite Hs, mutate_signals.
Qed.

Lemma timeout_kill_failure_is_error_witness :
  let w' := run_step 0 (TimedOut (Some [])) 1202 w_reading in
  status_of w' job1 = Some StError
  /\ signals w' = [1%nat]
  /\ t_pc <$> tasks w' !! 0%nat = Some Returned.
Proof.
  assert (Ht : tasks w_reading !! 0%nat = Some t_reading) by reflexivity.
  assert (Hg : get_job w_reading (t_job_id t_reading) = Some (0%nat, j_reading))
    by reflexivity.
  destruct (timeout_kill_failure_is_error 0 t_reading 1 0 j_reading [] 1202
              w_reading Ht eq_refl Hg) as (H1 & H2 & H3).
  cbv zeta. unfold status_of. change job1 with (t_job_id t_reading).
  rewrite H1. split; [reflexivity|]. split; [exact H3|exact H2].
Defined.

(** X9.  A task whose job has been removed from the registry ends with
    the [KeyError] of its next subscript: when the spawn completes, when
    the child is reaped, or when the awaited call raises, the task is
    left by an exception and has written nothing, neither to a
    dictionary nor to the registry, and has signalled no child. *)
Theorem run_on_swept_job
        (tid : nat) (t : task) (ev : os_event) (now : time) (w : world) :
  tasks w !! tid = Some t ->
  get_job w (t_job_id t) = None ->
  enabled (t_pc t) ev = true ->
  (forall line, ev <> Readline line) ->
  (forall kill_error, ev <> TimedOut kill_error) ->
  let w' := run_step tid ev now w in
  t_pc <$> tasks w' !! tid = Some Raised
  /\ heap w' = heap w /\ jobs w' = jobs w /\ signals w' = signals w.
Proof.
  intros Ht Hg Hen Hnr Hnt. cbv zeta.
  destruct (run_step_pc tid t ev now w Ht) as (Hp & Hh & Hj & Hs).
  assert (Hr : resume t ev now w = (w, Raised)).
  { unfold resume, on_exception, or_key_error, update_job.
    destruct (t_pc t), ev as [p'|line|ke|ws|e]; try discriminate;
      try (now rewrite Hg);
      try (exfalso; now apply (Hnr line));
      try (exfalso; now apply (Hnt ke)). }
  rewrite Hr in *. cbn [fst snd] in *. easy.
Qed.

Lemma run_on_swept_job_witness :
  let w' := run_step 0 (Exited (WEXITED 0)) 4001 w_swept in
  get_job w_swept job1 = None
  /\ t_pc <$> tasks w' !! 0%nat = Some Raised
  /\ heap w' = heap w_swept.
Proof.
  assert (Ht : tasks w_swept !! 0%nat = Some t_swept) by reflexivity.
  assert (Hg : get_job w_swept (t_job_id t_swept) = None) by reflexivity.
  destruct (run_on_swept_job 0 t_swept (Exited (WEXITED 0)) 4001 w_swept
              Ht Hg eq_refl ltac:(discriminate) ltac:(discriminate))
    as (H1 & H2 & _).
  cbv zeta. split; [exact Hg|]. split; [exact H1|exact H2].
Defined.

(** ** Invariants of the heap *)

Section HeapInvariant.

Variable P : Job.t -> Prop.

Hypothesis P_create :
  forall cmd dir now, is_blocked_command cmd = None -> P (Job.create cmd dir now).
Hypothesis P_set_process : forall p j, P j -> P (Job.set_process p j).
Hypothesis P_append_line : forall l j, P j -> P (Job.append_line l j).
Hypothesis P_update_timeout :
  forall out now j, P j -> P (Job.update_timeout out now j).
Hypothesis P_update_finished :
  forall out rc now j, P j -> P (Job.update_finished out rc now j).
Hypothesis P_update_error : forall e now j, P j -> P (Job.update_error e now j).
Hypothesis P_update_cancelled :
  forall now j, P j -> Job.status j = StRunning ->
                P (Job.update_cancelled now j).

Lemma heap_all_mutate a f w :
  heap_all P w ->
  (forall j, heap w !! a = Some j -> P j -> P (f j)) ->
  heap_all P (mutate a f w).
Proof.
  intros Hw Hf b j. rewrite mutate_lookup. case_decide as Hab.
  - subst b. destruct (heap w !! a) as [j0|] eqn:E; [|discriminate].
    intros [= <-]. apply Hf; [reflexivity|]. now apply (Hw a).
  - apply Hw.
Qed.

Lemma heap_all_update_job job_id f w w' :
  heap_all P w -> (forall j, P j -> P (f j)) ->
  update_job job_id f w = Some w' -> heap_all P w'.
Proof.
  intros Hw Hf. unfold update_job.
  destruct (get_job w job_id) as [[a j]|]; [|discriminate].
  intros [= <-]. apply heap_all_mutate; auto.
Qed.

Lemma heap_all_on_exception t e now w :
  heap_all P w -> heap_all P (on_exception t e now w).1.
Proof.
  intros Hw. unfold on_exception.
  destruct (update_job _ _ w) as [w'|] eqn:E; cbn [fst]; [|exact Hw].
  eapply heap_all_update_job; [exact Hw| |exact E]. auto.
Qed.

Lemma heap_all_resume t ev now w :
  heap_all P w -> heap_all P (resume t ev now w).1.
Proof.
  intros Hw.
  assert (Hk : forall f pc,
             (forall j, P j -> P (f j)) ->
             heap_all P (or_key_error (update_job (t_job_id t) f w) pc w).1).
  { intros f pc Hf. destruct (update_job _ f w) as [w'|] eqn:E; cbn [fst];
      [|exact Hw].
    eapply heap_all_update_job; [exact Hw|exact Hf|exact E]. }
  unfold resume.
  destruct (t_pc t), ev as [p'|[|c l]|[ke|]|ws|e]; cbn [fst];
    try exact Hw; try (now apply heap_all_on_exception);
    try (apply Hk; auto).
  all: try (apply heap_all_mutate; auto).
  all: try (now apply (heap_all_on_exception t ke now (with_signals _ w))).
Qed.

Lemma heap_all_apply_event w e : heap_all P w -> heap_all P (apply_event w e).
Proof.
  intros Hw.
  destruct e as [req job_id now now'|job_id now|now|tid ev now];
    cbn [apply_event].
  - unfold exec_command.
    destruct (is_blocked_command (command req)) eqn:Eb; cbn [fst];
      [exact Hw|].
    intros a j. cbn [heap purge_old_jobs with_jobs].
    rewrite lookup_app. destruct (heap w !! a) as [j0|] eqn:E.
    + intros [= <-]. now apply (Hw a).
    + destruct (a - length (heap w))%nat as [|n]; cbn; [|discriminate].
      intros [= <-]. now apply P_create.
  - unfold cancel_job. destruct (get_job w job_id) as [[a j]|] eqn:Hg;
      [|exact Hw].
    destruct (negb _) eqn:Es; cbn [fst]; [exact Hw|].
    apply negb_false_iff, status_eqb_eq in Es.
    assert (Ha : heap w !! a = Some j).
    { unfold get_job in Hg. destruct (jobs w !! job_id) as [b|]; [|discriminate].
      destruct (heap w !! b) eqn:E; [|discriminate]. now injection Hg as -> ->. }
    destruct (Job.process j);
      (apply heap_all_mutate; [exact Hw|]);
      cbn [heap with_signals]; intros j0 Hj0 HP;
      rewrite Ha in Hj0; injection Hj0 as <-; now apply P_update_cancelled.
  - exact Hw.
  - unfold run_step. destruct (tasks w !! tid) as [t|]; [|exact Hw].
    pose proof (heap_all_resume t ev now w Hw) as H.
    now destruct (resume t ev now w).
Qed.

Lemma heap_all_run_events w es :
  heap_all P w -> heap_all P (run_events w es).
Proof.
  intros Hw. induction es as [|e es IH] using rev_ind; [exact Hw|].
  unfold run_events. rewrite foldl_snoc. now apply heap_all_apply_event.
Qed.

Lemma heap_all_reachable w : reachable w -> heap_all P w.
Proof.
  intros [es ->]. apply heap_all_run_events. intros a j. cbn.
  now rewrite lookup_nil.
Qed.

End HeapInvariant.

Lemma coherent_run_updates out now j :
  coherent (Job.update_timeout out now j)
  /\ (forall rc, coherent (Job.update_finished out rc now j)).
Proof.
  split; [|intros rc]; unfold coherent; cbn;
    repeat split; intros; try congruence; try (destruct H; congruence).
Qed.

Lemma reachable_heap_coherent (w : world) :
  reachable w -> heap_all coherent w.
Proof.
  intros Hr.
  apply heap_all_reachable; [| | | | | | |exact Hr].
  - intros cmd dir now _. unfold coherent. cbn.
    repeat split; intros; try congruence; try (destruct H; congruence).
  - intros p j H. exact H.
  - intros l j H. exact H.
  - intros out now j _. apply coherent_run_updates.
  - intros out rc now j _. apply coherent_run_updates.
  - intros e now j (H1 & H2 & H3 & H4 & H5 & H6 & H7 & H8).
    unfold coherent. cbn.
    repeat split; intros; try congruence; try (destruct H; congruence);
      try tauto.
  - intros now j (H1 & H2 & H3 & H4 & H5 & H6 & H7 & H8) Hs.
    unfold coherent. cbn.
    repeat split; intros; try congruence; try (destruct H; congruence);
      try tauto; auto.
Qed.

(** X10.  In every world the service can reach, every job dictionary is
    coherent: [finished_at] is set exactly when the status is not
    [running]; a running job has no [stdout], [returncode] or [error],
    and neither has a cancelled job a [stdout] or a [returncode];
    [stdout], [stderr] and [returncode] are present together; a
    finished or timed-out job has them, a timed-out one with return
    code -1; a job in [error] has an [error] text. *)
Theorem reachable_jobs_coherent (w : world) (a : addr) (j : Job.t) :
  reachable w -> heap w !! a = Some j -> coherent j.
Proof. intros Hr. exact (reachable_heap_coherent w Hr a j). Qed.


Lemma reachable_jobs_coherent_witness :
  reachable w_done /\ heap w_done !! 0%nat = Some j_done /\ coherent j_done.
Proof.
  assert (Hr : reachable w_done) by (eexists; reflexivity).
  assert (Hh : heap w_done !! 0%nat = Some j_done) by reflexivity.
  split; [exact Hr|]. split; [exact Hh|].
  exact (reachable_jobs_coherent w_done 0 j_done Hr Hh).
Defined.

(** ** What an event keeps of every dictionary *)

Section HeapHistory.

Variable R : Job.t -> Job.t -> Prop.

Hypothesis R_refl : forall j, R j j.
Hypothesis R_trans : forall j1 j2 j3, R j1 j2 -> R j2 j3 -> R j1 j3.
Hypothesis R_set_process : forall p j, R j (Job.set_process p j).
Hypothesis R_append_line : forall l j, R j (Job.append_line l j).
Hypothesis R_update_timeout : forall out now j, R j (Job.update_timeout out now j).
Hypothesis R_update_finished :
  forall out rc now j, R j (Job.update_finished out rc now j).
Hypothesis R_update_error : forall e now j, R j (Job.update_error e now j).
Hypothesis R_update_cancelled : forall now j, R j (Job.update_cancelled now j).

Lemma heap_rel_refl h : heap_related R h h.
Proof. intros a j H. eauto. Qed.

Lemma heap_rel_trans h1 h2 h3 : heap_related R h1 h2 -> heap_related R h2 h3 -> heap_related R h1 h3.
Proof.
  intros H12 H23 a j Ha. destruct (H12 a j Ha) as (j2 & Ha2 & R12).
  destruct (H23 a j2 Ha2) as (j3 & Ha3 & R23). eauto.
Qed.

Lemma heap_rel_mutate a f w :
  (forall j, R j (f j)) -> heap_related R (heap w) (heap (mutate a f w)).
Proof.
  intros Hf b j Hb. rewrite mutate_lookup. case_decide.
  - rewrite Hb. exists (f j). split; [reflexivity|apply Hf].
  - eauto.
Qed.

Lemma heap_rel_update_job job_id f w w' :
  (forall j, R j (f j)) ->
  update_job job_id f w = Some w' -> heap_related R (heap w) (heap w').
Proof.
  intros Hf. unfold update_job.
  destruct (get_job w job_id) as [[a j]|]; [|discriminate].
  intros [= <-]. now apply heap_rel_mutate.
Qed.

Lemma heap_rel_on_exception t e now w :
  heap_related R (heap w) (heap (on_exception t e now w).1).
Proof.
  unfold on_exception.
  destruct (update_job _ _ w) as [w'|] eqn:E; cbn [fst];
    [|apply heap_rel_refl].
  eapply heap_rel_update_job; [|exact E]. auto.
Qed.

Lemma heap_rel_resume t ev now w :
  heap_related R (heap w) (heap (resume t ev now w).1).
Proof.
  assert (Hk : forall f pc,
             (forall j, R j (f j)) ->
             heap_related R (heap w)
               (heap (or_key_error (update_job (t_job_id t) f w) pc w).1)).
  { intros f pc Hf. destruct (update_job _ f w) as [w'|] eqn:E; cbn [fst];
      [|apply heap_rel_refl].
    eapply heap_rel_update_job; [exact Hf|exact E]. }
  unfold resume.
  destruct (t_pc t), ev as [p'|[|c l]|[ke|]|ws|e]; cbn [fst];
    try apply heap_rel_refl; try apply heap_rel_on_exception;
    try (apply Hk; auto).
  all: try (apply heap_rel_mutate; auto).
  all: try (apply (heap_rel_on_exception t ke now (with_signals _ w))).
Qed.

Lemma heap_rel_apply_event w e : heap_related R (heap w) (heap (apply_event w e)).
Proof.
  destruct e as [req job_id now now'|job_id now|now|tid ev now];
    cbn [apply_event].
  - unfold exec_command. destruct (is_blocked_command _); cbn [fst];
      [apply heap_rel_refl|].
    intros a j Ha. exists j. split; [|apply R_refl].
    cbn [heap purge_old_jobs with_jobs]. rewrite lookup_app_l; [exact Ha|].
    now apply lookup_lt_Some in Ha.
  - unfold cancel_job. destruct (get_job w job_id) as [[a j]|];
      [|apply heap_rel_refl].
    destruct (negb _); cbn [fst]; [apply heap_rel_refl|].
    destruct (Job.process j);
      apply (heap_rel_mutate a _ (with_signals _ w)) ||
      apply heap_rel_mutate; auto.
  - apply heap_rel_refl.
  - unfold run_step. destruct (tasks w !! tid) as [t|]; [|apply heap_rel_refl].
    pose proof (heap_rel_resume t ev now w) as H.
    now destruct (resume t ev now w).
Qed.

Lemma heap_rel_run_events w es : heap_related R (heap w) (heap (run_events w es)).
Proof.
  induction es as [|e es IH] using rev_ind; [apply heap_rel_refl|].
  unfold run_events. rewrite foldl_snoc.
  eapply heap_rel_trans; [exact IH|apply heap_rel_apply_event].
Qed.

End HeapHistory.

(** X11.  Whatever happens afterwards, a job dictionary stays on the
    heap at its address and keeps the [command], [cwd] and [created_at]
    it was created with. *)
Theorem submission_keys_never_change
        (w : world) (es : list event) (a : addr) (j : Job.t) :
  heap w !! a = Some j ->
  exists j',
    heap (run_events w es) !! a = Some j'
    /\ Job.command j' = Job.command j
    /\ Job.cwd j' = Job.cwd j
    /\ Job.created_at j' = Job.created_at j.
Proof.
  intros Ha.
  destruct (heap_rel_run_events same_submission) with (w := w) (es := es)
                                                      (a := a) (j := j)
    as (j' & Hj' & Hs); try exact Ha; try (intros; now repeat split).
  - intros j1 j2 j3 (H1 & H2 & H3) (H4 & H5 & H6). repeat split; congruence.
  - exists j'. destruct Hs as (H1 & H2 & H3). auto.
Qed.

Lemma submission_keys_never_change_witness :
  exists j',
    heap (run_events w_reading [Cancel job1 3; Resume 0 (Readline []) 30;
                                Resume 0 (Exited (WSIGNALED 9)) 30])
      !! 0%nat = Some j'
    /\ Job.command j' = u"echo partial; sleep 30"
    /\ Job.cwd j' = None
    /\ Job.created_at j' = 0.
Proof.
  apply (submission_keys_never_change w_reading _ 0 j_reading).
  reflexivity.
Defined.

(** X12.  No job of a reachable world holds a command the gate would
    reject: a dictionary is only ever created for a command that passed
    [is_blocked_command], and its command is never rewritten. *)
Theorem reachable_jobs_passed_gate (w : world) (a : addr) (j : Job.t) :
  reachable w -> heap w !! a = Some j ->
  is_blocked_command (Job.command j) = None.
Proof.
  intros Hr. revert a j.
  change (heap_all (fun j => is_blocked_command (Job.command j) = None) w).
  apply heap_all_reachable; auto.
Qed.

Lemma reachable_jobs_passed_gate_witness :
  reachable w_done /\ is_blocked_command (Job.command j_done) = None.
Proof.
  assert (Hr : reachable w_done) by (eexists; reflexivity).
  split; [exact Hr|].
  apply (reachable_jobs_passed_gate w_done 0 j_done Hr). reflexivity.
Defined.

(** ** Tasks, dictionaries and registry *)

Lemma resume_tasks t ev now w : tasks (resume t ev now w).1 = tasks w.
Proof.
  unfold resume, or_key_error, on_exception, update_job.
  destruct (t_pc t), ev as [p'|[|c l]|[ke|]|ws|e]; cbn [fst];
    try reflexivity;
    repeat match goal with
           | |- context [get_job ?w0 ?i] =>
               destruct (get_job w0 i) as [[? ?]|]; cbn [fst]
           end;
    rewrite ?mutate_tasks; reflexivity.
Qed.

Lemma run_step_tasks tid t ev now w :
  tasks w !! tid = Some t ->
  tasks (run_step tid ev now w)
  = <[tid := at_pc (resume t ev now w).2 t]> (tasks w).
Proof.
  intros Ht. rewrite (run_step_at _ _ _ _ _ Ht). cbn [tasks with_tasks].
  now rewrite resume_tasks.
Qed.

Lemma same_submission_rel w e :
  heap_related same_submission (heap w) (heap (apply_event w e)).
Proof.
  apply heap_rel_apply_event; try (intros; now repeat split).
Qed.

(** A task after an event: an old one with its closure, or the one the
    event has just started. *)
Lemma tasks_apply_event w e tid t' :
  tasks (apply_event w e) !! tid = Some t' ->
  (exists t, tasks w !! tid = Some t /\ same_closure t t')
  \/ (tid = length (tasks w)
      /\ exists req now now',
           e = Exec req (t_job_id t') now now'
           /\ is_blocked_command (command req) = None
           /\ t' = {| t_req := req; t_job_id := t_job_id t';
                      t_output_lines := length (heap w);
                      t_pc := AwaitSpawn |}).
Proof.
  destruct e as [req job_id now now'|job_id now|now|tid0 ev now];
    cbn [apply_event].
  - unfold exec_command.
    destruct (is_blocked_command (command req)) eqn:Eb; cbn [fst tasks
      purge_old_jobs with_jobs heap].
    + intros H. left. exists t'. now repeat split.
    + rewrite lookup_app. destruct (tasks w !! tid) as [t|] eqn:Et.
      * intros [= <-]. left. exists t. now repeat split.
      * apply lookup_ge_None_1 in Et.
        destruct (tid - length (tasks w))%nat as [|n] eqn:En; cbn;
          [|discriminate].
        intros [= <-]. right. split; [lia|]. cbn [t_job_id].
        exists req, now, now'. now repeat split.
  - intros H. left. exists t'. split; [|now repeat split].
    unfold cancel_job in H. destruct (get_job w job_id) as [[a j]|];
      [|exact H].
    destruct (negb _); cbn [fst] in H; [exact H|].
    rewrite mutate_tasks in H. now destruct (Job.process j).
  - intros H. left. exists t'. now repeat split.
  - destruct (tasks w !! tid0) as [t0|] eqn:Et0;
      [rewrite (run_step_tasks _ _ _ _ _ Et0)|unfold run_step; rewrite Et0].
    + destruct (decide (tid0 = tid)) as [->|Hne].
      * rewrite list_lookup_insert_eq by now apply lookup_lt_Some in Et0.
        intros [= <-]. left. exists t0. now repeat split.
      * rewrite list_lookup_insert_ne by exact Hne.
        intros H. left. exists t'. now repeat split.
    + intros H. left. exists t'. now repeat split.
Qed.

Lemma length_tasks_apply_event w e :
  length (tasks w) = length (heap w) ->
  length (tasks (apply_event w e)) = length (heap (apply_event w e)).
Proof.
  intros Hl.
  destruct e as [req job_id now now'|job_id now|now|tid0 ev now];
    cbn [apply_event].
  - unfold exec_command. destruct (is_blocked_command _); cbn [fst tasks heap
      purge_old_jobs with_jobs]; [exact Hl|].
    rewrite !length_app. cbn. lia.
  - unfold cancel_job. destruct (get_job w job_id) as [[a j]|]; [|exact Hl].
    destruct (negb _); cbn [fst]; [exact Hl|].
    rewrite mutate_tasks, mutate_length. now destruct (Job.process j).
  - exact Hl.
  - destruct (run_step_frame tid0 ev now w) as [_ ->].
    destruct (tasks w !! tid0) as [t0|] eqn:Et0;
      [rewrite (run_step_tasks _ _ _ _ _ Et0)|unfold run_step; rewrite Et0];
      [now rewrite length_insert|exact Hl].
Qed.

(** A registry entry after an event: an old one, or the one the event
    has just made. *)
Lemma jobs_apply_event w e id a :
  jobs (apply_event w e) !! id = Some a ->
  jobs w !! id = Some a
  \/ (a = length (heap w)
      /\ exists req now now',
           e = Exec req id now now'
           /\ is_blocked_command (command req) = None).
Proof.
  destruct e as [req job_id now now'|job_id now|now|tid0 ev now];
    cbn [apply_event].
  - unfold exec_command.
    destruct (is_blocked_command (command req)) eqn:Eb; cbn [fst jobs
      purge_old_jobs with_jobs heap].
    + rewrite lookup_foldl_delete. case_decide; [discriminate|]. now left.
    + rewrite lookup_insert. case_decide as Hid.
      * subst id. intros [= <-]. right. split; [reflexivity|].
        now exists req, now, now'.
      * rewrite lookup_foldl_delete. case_decide; [discriminate|]. now left.
  - unfold cancel_job. destruct (get_job w job_id) as [[b j]|]; [|now left].
    destruct (negb _); cbn [fst]; [now left|].
    rewrite mutate_jobs. left. now destruct (Job.process j).
  - cbn [list_jobs fst jobs purge_old_jobs with_jobs].
    rewrite lookup_foldl_delete. case_decide; [discriminate|]. now left.
  - destruct (run_step_frame tid0 ev now w) as [-> _]. now left.
Qed.

Lemma allocated_apply_event w e : allocated w -> allocated (apply_event w e).
Proof.
  intros (Hlen & Htasks & Hjobs).
  split; [now apply length_tasks_apply_event|]. split.
  - intros tid t' Ht'.
    destruct (tasks_apply_event w e tid t' Ht')
      as [(t & Ht & Hreq & Hid & Hout)|(-> & req & now & now' & -> & Hb & ->)].
    + destruct (Htasks tid t Ht) as (Ho & j & Hj & Hc & Hd).
      split; [congruence|].
      destruct (same_submission_rel w e tid j Hj) as (j' & Hj' & H1 & H2 & _).
      exists j'. rewrite Hreq. split; [exact Hj'|]. split; congruence.
    + cbn [t_output_lines t_req]. split; [symmetry; exact Hlen|].
      cbn [apply_event]. unfold exec_command. rewrite Hb.
      cbn [fst heap purge_old_jobs with_jobs].
      exists (Job.create (command req) (cwd req) now').
      rewrite Hlen. now rewrite list_lookup_middle.
  - intros id a Hj.
    assert (Hfw : forall t, tasks w !! a = Some t ->
                  exists t', tasks (apply_event w e) !! a = Some t'
                             /\ t_job_id t' = t_job_id t).
    { intros t Ht.
      assert (Hlt : (a < length (tasks (apply_event w e)))%nat).
      { rewrite (length_tasks_apply_event w e Hlen).
        destruct (Htasks a t Ht) as (_ & j & Hj0 & _).
        destruct (same_submission_rel w e a j Hj0) as (j' & Hj' & _).
        now apply lookup_lt_Some in Hj'. }
      destruct (lookup_lt_is_Some_2 _ _ Hlt) as [t' Ht'].
      exists t'. split; [exact Ht'|].
      destruct (tasks_apply_event w e a t' Ht')
        as [(t0 & Ht0 & _ & Hid & _)|(Ha & _)].
      - congruence.
      - apply lookup_lt_Some in Ht. lia. }
    destruct (jobs_apply_event w e id a Hj)
      as [Hold|(-> & req & now & now' & -> & Hb)].
    + destruct (Hjobs id a Hold) as (t & Ht & Hid).
      destruct (Hfw t Ht) as (t' & Ht' & Hid'). exists t'. split; congruence.
    + cbn [apply_event]. unfold exec_command. rewrite Hb.
      cbn [fst tasks purge_old_jobs with_jobs].
      eexists. rewrite <- Hlen. rewrite list_lookup_middle by reflexivity.
      split; reflexivity.
Qed.

Lemma reachable_is_allocated (w : world) : reachable w -> allocated w.
Proof.
  intros [es ->].
  induction es as [|e es IH] using rev_ind.
  - split; [reflexivity|]. split.
    + intros tid t. cbn. now rewrite lookup_nil.
    + intros id a. cbn. now rewrite lookup_empty.
  - unfold run_events. rewrite foldl_snoc. now apply allocated_apply_event.
Qed.

(** X13.  In every reachable world there is one task per job
    dictionary; the task numbered [tid] is the one that appends to the
    dictionary at address [tid], and that dictionary holds the command
    and the directory the task was started with; every id in the
    registry is bound to the dictionary of a task that was started for
    that id. *)
Theorem reachable_allocated (w : world) :
  reachable w ->
  length (tasks w) = length (heap w)
  /\ (forall tid t,
        tasks w !! tid = Some t ->
        t_output_lines t = tid
        /\ exists j, heap w !! tid = Some j
                     /\ Job.command j = command (t_req t)
                     /\ Job.cwd j = cwd (t_req t))
  /\ (forall id a,
        jobs w !! id = Some a ->
        exists t, tasks w !! a = Some t /\ t_job_id t = id).
Proof. exact (reachable_is_allocated w). Qed.


Lemma reachable_allocated_witness :
  reachable w_reading
  /\ length (tasks w_reading) = length (heap w_reading)
  /\ exists t, tasks w_reading !! 0%nat = Some t /\ t_job_id t = job1.
Proof.
  assert (Hr : reachable w_reading) by (eexists; reflexivity).
  destruct (reachable_allocated w_reading Hr) as (Hl & _ & Hj).
  split; [exact Hr|]. split; [exact Hl|].
  apply (Hj job1 0%nat). reflexivity.
Defined.

(** ** Listing *)

Lemma size_foldl_delete (js : gmap str addr) (ids : list str) :
  (size (foldl (fun js jid => delete jid js) js ids) <= size js)%nat.
Proof.
  revert js. induction ids as [|i ids IH]; intros js; cbn [foldl]; [lia|].
  etransitivity; [apply IH|]. rewrite map_size_delete.
  destruct (js !! i); cbn; lia.
Qed.

Lemma omap_all_Some {A B C} (f : A -> option B) (g : B -> C) (h : A -> C)
      (l : list A) :
  Forall (fun x => exists y, f x = Some y /\ g y = h x) l ->
  g <$> omap f l = h <$> l /\ length (omap f l) = length l.
Proof.
  induction 1 as [|x l (y & Hy & Hg) _ [IH1 IH2]]; [easy|].
  cbn. rewrite Hy. cbn. now rewrite Hg, IH1, IH2.
Qed.

(** X14.  A listing names every job the sweep retained once and no other:
    the ids of its summaries are pairwise different and there are as
    many summaries as registry entries after the sweep.  [health], which
    does not sweep, may count more jobs than a listing at the same time
    shows, never fewer. *)
Theorem list_jobs_one_per_job (now : time) (w : world) :
  reachable w ->
  let '(w', l) := list_jobs now w in
  NoDup (js_job_id <$> l)
  /\ length l = size (jobs w')
  /\ (length l <= hb_jobs_count (health now w))%nat
  /\ hb_jobs_count (health now w') = length l.
Proof.
  intros Hr. unfold list_jobs.
  set (w' := purge_old_jobs now w).
  pose proof (wf_purge now w (reachable_wf w Hr)) as Hwf. fold w' in Hwf.
  destruct (omap_all_Some
              (fun '(jid, a) =>
                 match heap w' !! a with
                 | Some job => Some (summary jid job)
                 | None => None
                 end)
              js_job_id fst (map_to_list (jobs w'))) as [Hids Hlen].
  { apply Forall_forall. intros [jid a] Hin.
    apply elem_of_map_to_list in Hin. apply Hwf in Hin.
    destruct (lookup_lt_is_Some_2 _ _ Hin) as [j Hj].
    exists (summary jid j). now rewrite Hj. }
  rewrite length_map_to_list in Hlen.
  split; [rewrite Hids; apply NoDup_fst_map_to_list|].
  split; [exact Hlen|]. split; [|symmetry; exact Hlen].
  rewrite Hlen. cbn [health hb_jobs_count]. subst w'.
  cbn [jobs purge_old_jobs with_jobs]. apply size_foldl_delete.
Qed.

Lemma list_jobs_one_per_job_witness :
  reachable w_done
  /\ length (list_jobs 3700 w_done).2 = 0%nat
  /\ hb_jobs_count (health 3700 w_done) = 1%nat
  /\ length (list_jobs 5 w_done).2 = 1%nat.
Proof.
  assert (Hr : reachable w_done) by (eexists; reflexivity).
  split; [exact Hr|].
  pose proof (list_jobs_one_per_job 3700 w_done Hr) as H1.
  pose proof (list_jobs_one_per_job 5 w_done Hr) as H2.
  destruct (list_jobs 3700 w_done) as [w1 l1] eqn:E1.
  destruct (list_jobs 5 w_done) as [w2 l2] eqn:E2.
  destruct H1 as (_ & H1 & _). destruct H2 as (_ & H2 & _).
  cbn [snd]. rewrite H1, H2.
  replace w1 with (list_jobs 3700 w_done).1 by now rewrite E1.
  replace w2 with (list_jobs 5 w_done).1 by now rewrite E2.
  vm_compute. repeat split.
Defined.

(** ** A run to its normal end *)

Lemma task_on_heap w tid t a j : task_on w tid t a j -> heap w !! a = Some j.
Proof.
  intros (_ & Hg & _). unfold get_job in Hg.
  destruct (jobs w !! t_job_id t) as [b|]; [|discriminate].
  destruct (heap w !! b) eqn:E; [|discriminate]. now injection Hg as -> ->.
Qed.

(** The effect of a step that ends in one mutation of the task's own
    dictionary. *)
Lemma task_on_step tid t a j ev now w f pc :
  task_on w tid t a j ->
  resume t ev now w = (mutate a f w, pc) ->
  task_on (run_step tid ev now w) tid (at_pc pc t) a (f j)
  /\ signals (run_step tid ev now w) = signals w.
Proof.
  intros (Ht & Hg & Ho) Hr.
  destruct (run_step_pc tid t ev now w Ht) as (Hp & Hh & Hj & Hs).
  rewrite Hr in *. cbn [fst snd] in *.
  split; [|now rewrite Hs, mutate_signals].
  split; [|split; [|exact Ho]].
  - rewrite (run_step_tasks _ _ _ _ _ Ht), Hr. cbn [snd].
    apply list_lookup_insert_eq. now apply lookup_lt_Some in Ht.
  - cbn [at_pc t_job_id]. unfold get_job. rewrite Hj, Hh.
    fold (get_job (mutate a f w) (t_job_id t)).
    rewrite get_job_mutate, Hg. now rewrite decide_True.
Qed.

Lemma task_on_readlines tid p lines :
  Forall (fun lt : str * time => lt.1 <> []) lines ->
  forall t a j w,
    task_on w tid t a j ->
    t_pc t = AwaitReadline p ->
    let w' := run_events w (readlines tid lines) in
    task_on w' tid (at_pc (AwaitReadline p) t) a
            (Job.mk (Job.status j) (Job.command j) (Job.cwd j)
                    (Job.created_at j) (Job.output_lines j ++ lines.*1)
                    (Job.process j) (Job.stdout j) (Job.stderr j)
                    (Job.returncode j) (Job.error j) (Job.finished_at j))
    /\ signals w' = signals w.
Proof.
  induction 1 as [|[l tl] lines Hl _ IH]; intros t a j w Hon Hpc; cbv zeta.
  - cbn [readlines map run_events foldl fmap list_fmap]. rewrite app_nil_r.
    split; [|reflexivity]. destruct Hon as (Ht & Hg & Ho).
    destruct j, t. cbn in *. subst. now repeat split.
  - cbn [readlines map run_events foldl apply_event fst snd].
    change (foldl apply_event ?x (map ?f lines))
      with (run_events x (readlines tid lines)).
    cbn [fst] in Hl.
    assert (Hr : resume t (Readline l) tl w
                 = (mutate a (Job.append_line l) w, AwaitReadline p)).
    { unfold resume. rewrite Hpc. destruct Hon as (_ & _ & ->).
      destruct l; [congruence|reflexivity]. }
    destruct (task_on_step tid t a j _ _ w _ _ Hon Hr) as [Hon' Hs'].
    destruct (IH _ _ _ _ Hon' eq_refl) as [Hon'' Hs''].
    cbv zeta in Hon'', Hs''. split; [|congruence].
    cbn [fmap list_fmap]. cbn [Job.append_line Job.status Job.command
      Job.cwd Job.created_at Job.output_lines Job.process Job.stdout
      Job.stderr Job.returncode Job.error Job.finished_at at_pc
      t_req t_job_id t_output_lines] in Hon''.
    rewrite <- app_assoc in Hon''. exact Hon''.
Qed.

(** X15.  A command that passes the gate, whose child is spawned, prints
    some lines, closes its output and ends, with no other request in
    between, is reported by [result] as [finished] with [stdout] the
    lines joined in the order they were read and [returncode] the
    child's return code; [output_lines] holds the same lines, and the
    task has returned without signalling any child. *)
Theorem run_to_normal_exit
        (req : CommandRequest) (job_id : str) (now now' : time) (w : world)
        (p : proc) (lines : list (str * time)) (ws : wait_status)
        (t_spawn t_eof t_exit : time) :
  is_blocked_command (command req) = None ->
  Forall (fun lt : str * time => lt.1 <> []) lines ->
  let tid := length (tasks w) in
  let w' :=
    run_events w
      (Exec req job_id now now' :: Resume tid (Spawned p) t_spawn
         :: readlines tid lines
         ++ [Resume tid (Readline []) t_eof;
             Resume tid (Exited ws) t_exit]) in
  result job_id w' =
    Ok {| rb_job_id := job_id; rb_status := u"finished";
          rb_stdout := join lines.*1; rb_stderr := [];
          rb_returncode := Some (returncode_of ws); rb_error := None |}
  /\ output_of w' job_id = Some lines.*1
  /\ t_pc <$> tasks w' !! tid = Some Returned
  /\ signals w' = signals w.
Proof.
  intros Hb Hl. cbv zeta.
  pose proof (exec_command_new_job req job_id now now' w Hb) as Hx.
  cbn [run_events foldl apply_event].
  change (foldl apply_event ?x ?es) with (run_events x es).
  destruct (exec_command req job_id now now' w) as [w1 answer] eqn:E1.
  cbv zeta in Hx. destruct Hx as (_ & Hg1 & _ & Ht1 & Hs1 & _).
  cbn [fst].
  set (t1 := {| t_req := req; t_job_id := job_id;
                t_output_lines := length (heap w); t_pc := AwaitSpawn |}).
  assert (Hon1 : task_on w1 (length (tasks w)) t1 (length (heap w))
                         (Job.create (command req) (cwd req) now')).
  { split; [|split; [exact Hg1|reflexivity]].
    rewrite Ht1. now apply list_lookup_middle. }
  assert (Hr2 : resume t1 (Spawned p) t_spawn w1
                = (mutate (length (heap w)) (Job.set_process p) w1,
                   AwaitReadline p)).
  { unfold resume, update_job. cbn [t1 t_pc t_job_id]. now rewrite Hg1. }
  destruct (task_on_step _ _ _ _ _ _ _ _ _ Hon1 Hr2) as [Hon2 Hs2].
  set (w2 := run_step (length (tasks w)) (Spawned p) t_spawn w1) in *.
  unfold run_events. rewrite foldl_app.
  change (foldl apply_event w2 (readlines ?tid lines))
    with (run_events w2 (readlines tid lines)).
  destruct (task_on_readlines (length (tasks w)) p lines Hl _ _ _ _ Hon2 eq_refl)
    as [Hon3 Hs3]. cbv zeta in Hon3, Hs3.
  set (w3 := run_events w2 (readlines (length (tasks w)) lines)) in *.
  cbn [Job.create Job.set_process Job.status Job.command Job.cwd
    Job.created_at Job.output_lines Job.process Job.stdout Job.stderr
    Job.returncode Job.error Job.finished_at app at_pc t1 t_req t_job_id
    t_output_lines] in Hon3.
  set (t3 := {| t_req := req; t_job_id := job_id;
                t_output_lines := length (heap w);
                t_pc := AwaitReadline p |}) in *.
  set (j3 := Job.mk StRunning (command req) (cwd req) now' lines.*1 (Some p)
                    None None None None None) in *.
  cbn [foldl apply_event].
  (* end of stream *)
  assert (Hon4 : task_on (run_step (length (tasks w)) (Readline []) t_eof w3)
                         (length (tasks w)) (at_pc (AwaitExit p) t3)
                         (length (heap w)) j3
                 /\ signals (run_step (length (tasks w)) (Readline []) t_eof w3)
                    = signals w3).
  { destruct Hon3 as (Ht3 & Hg3 & Ho3).
    destruct (run_step_pc _ _ (Readline []) t_eof w3 Ht3) as (Hp & Hh & Hj & Hs).
    split; [|exact Hs].
    split; [|split; [|exact Ho3]].
    - rewrite (run_step_tasks _ _ _ _ _ Ht3).
      apply list_lookup_insert_eq. now apply lookup_lt_Some in Ht3.
    - cbn [at_pc t_job_id]. unfold get_job. rewrite Hj, Hh. exact Hg3. }
  destruct Hon4 as [Hon4 Hs4].
  set (w4 := run_step (length (tasks w)) (Readline []) t_eof w3) in *.
  assert (Hr5 : resume (at_pc (AwaitExit p) t3) (Exited ws) t_exit w4
                = (mutate (length (heap w))
                          (Job.update_finished (join lines.*1)
                                               (returncode_of ws) t_exit) w4,
                   Returned)).
  { unfold resume, update_job, captured.
    cbn [at_pc t3 t_pc t_job_id t_output_lines].
    pose proof (task_on_heap _ _ _ _ _ Hon4) as Hh4.
    pose proof (proj1 (proj2 Hon4)) as Hg4. cbn [at_pc t3 t_job_id] in Hg4.
    rewrite Hg4, Hh4. reflexivity. }
  destruct (task_on_step _ _ _ _ _ _ _ _ _ Hon4 Hr5) as [(Ht5 & Hg5 & _) Hs5].
  cbn [at_pc t3 t_job_id] in Hg5, Ht5.
  unfold result, output_of. rewrite Hg5.
  split; [reflexivity|]. split; [reflexivity|].
  split; [now rewrite Ht5|]. congruence.
Qed.

Lemma run_to_normal_exit_witness :
  result job2
    (run_events w_done
       [Exec quick_request job2 5 5; Resume 1 (Spawned 2%nat) 5;
        Resume 1 (Readline (u"hello" ++ NL)) 6;
        Resume 1 (Readline []) 6; Resume 1 (Exited (WEXITED 0)) 6])
  = Ok {| rb_job_id := job2; rb_status := u"finished";
          rb_stdout := u"hello" ++ NL; rb_stderr := [];
          rb_returncode := Some 0; rb_error := None |}.
Proof.
  assert (Hl : Forall (fun lt : str * time => lt.1 <> [])
                      [(u"hello" ++ NL, 6)])
    by (repeat constructor; discriminate).
  exact (proj1 (run_to_normal_exit quick_request job2 5 5 w_done 2
                  [(u"hello" ++ NL, 6)] (WEXITED 0) 5 6 6 eq_refl Hl)).
Defined.

(** ** The recorded [stdout] *)

Lemma heap_mutate_id a w : heap (mutate a (fun j => j) w) = heap w.
Proof.
  unfold mutate. destruct (heap w !! a) eqn:E; [|reflexivity].
  cbn. now apply list_insert_id.
Qed.

Lemma heap_mutate_congr a f w0 w :
  heap w0 = heap w -> heap (mutate a f w0) = heap (mutate a f w).
Proof.
  intros Hh. unfold mutate. rewrite Hh.
  destruct (heap w !! a); cbn [heap with_heap]; congruence.
Qed.

Lemma resume_not_awaiting t ev now w :
  awaiting (t_pc t) = false -> resume t ev now w = (w, t_pc t).
Proof.
  unfold resume. destruct (t_pc t); try discriminate; now destruct ev.
Qed.

(** With ids that do not repeat a task finds its own dictionary under
    its id, if it finds one. *)
Lemma own_job w tid t a j :
  allocated w ->
  (forall tid tid' t t',
      tasks w !! tid = Some t -> tasks w !! tid' = Some t' ->
      t_job_id t = t_job_id t' -> tid = tid') ->
  tasks w !! tid = Some t ->
  get_job w (t_job_id t) = Some (a, j) -> a = tid.
Proof.
  intros (_ & _ & Hjobs) Hinj Ht Hg. unfold get_job in Hg.
  destruct (jobs w !! t_job_id t) as [b|] eqn:Ej; [|discriminate].
  destruct (heap w !! b); [|discriminate]. injection Hg as -> _.
  destruct (Hjobs _ _ Ej) as (t' & Ht' & Hid). now apply (Hinj a tid t' t).
Qed.

(** What one step of the task numbered [tid] does to the heap: it
    rewrites at most the dictionary at [tid], and either leaves its
    [stdout] alone or sets it to the join of its lines and returns. *)
Lemma resume_own w tid t ev now :
  allocated w ->
  (forall tid tid' t t',
      tasks w !! tid = Some t -> tasks w !! tid' = Some t' ->
      t_job_id t = t_job_id t' -> tid = tid') ->
  tasks w !! tid = Some t ->
  exists f,
    heap (resume t ev now w).1 = heap (mutate tid f w)
    /\ forall j, heap w !! tid = Some j ->
         Job.stdout (f j) = Job.stdout j
         \/ (Job.stdout (f j) = Some (join (Job.output_lines (f j)))
             /\ (resume t ev now w).2 = Returned).
Proof.
  intros Hal Hinj Ht.
  assert (Hout : t_output_lines t = tid) by now apply (proj1 (proj2 Hal)).
  assert (Hsame : exists f, heap w = heap (mutate tid f w)
                            /\ forall j, Job.stdout (f j) = Job.stdout j).
  { exists (fun j => j). now rewrite heap_mutate_id. }
  assert (Hupd : forall f pc,
             (forall j, heap w !! tid = Some j ->
                Job.stdout (f j) = Job.stdout j
                \/ (Job.stdout (f j) = Some (join (Job.output_lines (f j)))
                    /\ pc = Returned)) ->
             exists f0,
               heap (or_key_error (update_job (t_job_id t) f w) pc w).1
               = heap (mutate tid f0 w)
               /\ forall j, heap w !! tid = Some j ->
                    Job.stdout (f0 j) = Job.stdout j
                    \/ (Job.stdout (f0 j)
                        = Some (join (Job.output_lines (f0 j)))
                        /\ (or_key_error (update_job (t_job_id t) f w) pc w).2
                           = Returned)).
  { intros f pc Hf. unfold update_job.
    destruct (get_job w (t_job_id t)) as [[a j0]|] eqn:Hg; cbn [or_key_error fst snd].
    - assert (a = tid) as -> by now apply (own_job w tid t a j0 Hal Hinj).
      exists f. split; [reflexivity|exact Hf].
    - destruct Hsame as (f0 & H1 & H2). exists f0. split; [exact H1|].
      intros j _. left. apply H2. }
  assert (Hexc : forall e w0,
             heap w0 = heap w -> jobs w0 = jobs w ->
             exists f0,
               heap (on_exception t e now w0).1 = heap (mutate tid f0 w)
               /\ forall j, heap w !! tid = Some j ->
                    Job.stdout (f0 j) = Job.stdout j
                    \/ (Job.stdout (f0 j)
                        = Some (join (Job.output_lines (f0 j)))
                        /\ (on_exception t e now w0).2 = Returned)).
  { intros e w0 Hh Hj. unfold on_exception, update_job.
    assert (Hgj : get_job w0 (t_job_id t) = get_job w (t_job_id t))
      by (unfold get_job; now rewrite Hh, Hj).
    rewrite Hgj.
    destruct (get_job w (t_job_id t)) as [[a j0]|] eqn:Hg; cbn [fst snd].
    - assert (a = tid) as -> by now apply (own_job w tid t a j0 Hal Hinj).
      exists (Job.update_error e now). split.
      + now apply heap_mutate_congr.
      + intros j _. now left.
    - destruct Hsame as (f0 & H1 & H2). exists f0. split; [congruence|].
      intros j _. left. apply H2. }
  assert (Hnone : exists f0,
             heap w = heap (mutate tid f0 w)
             /\ forall j pc, heap w !! tid = Some j ->
                  Job.stdout (f0 j) = Job.stdout j
                  \/ (Job.stdout (f0 j)
                      = Some (join (Job.output_lines (f0 j)))
                      /\ pc = Returned)).
  { destruct Hsame as (f0 & H1 & H2). exists f0. split; [exact H1|].
    intros j pc _. left. apply H2. }
  unfold resume.
  destruct (t_pc t) eqn:Hpc, ev as [p'|[|c l]|[ke|]|ws|e]; cbn [fst snd];
    try (destruct Hnone as (f0 & H1 & H2); exists f0;
         split; [exact H1|intros j Hj; now apply H2]);
    try (now apply Hexc);
    try (apply Hupd; intros j Hj; now left).
  all: try (rewrite Hout; eexists; split;
            [reflexivity|intros j _; now left]).
  all: try (now apply (Hexc _ (with_signals _ w))).
  all: apply Hupd; intros j Hj; right; (split; [|reflexivity]);
    unfold captured; rewrite Hout, Hj; reflexivity.
Qed.

Lemma tidy_apply_event used used' w e :
  allocated w -> tidy used w ->
  (forall x, x ∈ used -> x ∈ used') ->
  (forall req id n n', e = Exec req id n n' -> (id ∉ used) /\ (id ∈ used')) ->
  tidy used' (apply_event w e).
Proof.
  intros Hal (Hin & Hinj & Hout) Hsub Hfresh.
  pose proof Hal as (Hlen & Htasks & _).
  split; [|split].
  - intros tid t' Ht'.
    destruct (tasks_apply_event w e tid t' Ht')
      as [(t & Ht & _ & Hid & _)|(_ & req & n & n' & He & _)].
    + rewrite Hid. eauto.
    + now apply (Hfresh _ _ _ _ He).
  - intros tid tid' t1 t2 H1 H2 Hid.
    destruct (tasks_apply_event w e tid t1 H1)
      as [(t & Ht & _ & Hid1 & _)|(Htid & req & n & n' & He & _)];
      destruct (tasks_apply_event w e tid' t2 H2)
        as [(t' & Ht' & _ & Hid2 & _)|(Htid' & req' & m & m' & He' & _)].
    + apply (Hinj tid tid' t t' Ht Ht'). congruence.
    + exfalso. apply (Hfresh _ _ _ _ He'). rewrite <- Hid, Hid1. eauto.
    + exfalso. apply (Hfresh _ _ _ _ He). rewrite Hid, Hid2. eauto.
    + congruence.
  - destruct e as [req job_id now now'|job_id now|now|tid0 ev now];
      cbn [apply_event].
    + unfold exec_command. destruct (is_blocked_command _); cbn [fst tasks
        heap purge_old_jobs with_jobs]; [exact Hout|].
      intros tid t j. rewrite !lookup_app.
      destruct (tasks w !! tid) as [t0|] eqn:Et.
      * intros [= <-]. destruct (Htasks tid t0 Et) as (_ & j0 & Hj0 & _).
        rewrite Hj0. intros [= <-]. now apply (Hout tid).
      * apply lookup_ge_None_1 in Et.
        assert (Hh : heap w !! tid = None)
          by (apply lookup_ge_None_2; lia).
        rewrite Hh, <- Hlen. intros _.
        destruct (tid - length (tasks w))%nat; cbn; [|discriminate].
        intros [= <-]. cbn. congruence.
    + unfold cancel_job. destruct (get_job w job_id) as [[a j0]|];
        [|exact Hout].
      destruct (negb _); cbn [fst]; [exact Hout|].
      intros tid t j. rewrite mutate_tasks, mutate_lookup.
      assert (Ht : tasks (match Job.process j0 with
                          | Some p => with_signals (signals w ++ [p]) w
                          | None => w
                          end) = tasks w) by now destruct (Job.process j0).
      assert (Hh : heap (match Job.process j0 with
                         | Some p => with_signals (signals w ++ [p]) w
                         | None => w
                         end) = heap w) by now destruct (Job.process j0).
      rewrite Ht, Hh. intros Htid. case_decide.
      * destruct (heap w !! tid) as [j1|] eqn:E; [|discriminate].
        intros [= <-]. cbn. intros Hs.
        destruct (Hout tid t j1 Htid E Hs) as [Hp Hj]. now split.
      * now apply Hout.
    + exact Hout.
    + destruct (tasks w !! tid0) as [t0|] eqn:Et0;
        [|unfold run_step; rewrite Et0; exact Hout].
      intros tid t j.
      destruct (run_step_pc tid0 t0 ev now w Et0) as (_ & Hh & _ & _).
      rewrite (run_step_tasks _ _ _ _ _ Et0), Hh.
      destruct (Htasks tid0 t0 Et0) as (_ & j0 & Hj0 & _).
      destruct (decide (tid0 = tid)) as [<-|Hne].
      * rewrite list_lookup_insert_eq by now apply lookup_lt_Some in Et0.
        intros [= <-]. cbn [at_pc t_pc].
        destruct (awaiting (t_pc t0)) eqn:Haw.
        -- destruct (resume_own w tid0 t0 ev now Hal Hinj Et0) as (f & Hf & Hcase).
           rewrite Hf, mutate_lookup, decide_True, Hj0 by reflexivity.
           intros [= <-] Hs.
           destruct (Hcase j0 Hj0) as [Hsame|[Hjoin Hret]]; [|now split].
           rewrite Hsame in Hs.
           destruct (Hout tid0 t0 j0 Et0 Hj0 Hs) as [Hp _].
           rewrite Hp in Haw. discriminate.
        -- rewrite (resume_not_awaiting t0 ev now w Haw). cbn [fst snd].
           intros Hj. now apply (Hout tid0 t0 j).
      * rewrite list_lookup_insert_ne by exact Hne. intros Ht.
        destruct (resume_own w tid0 t0 ev now Hal Hinj Et0) as (f & Hf & _).
        rewrite Hf, mutate_lookup, decide_False by exact Hne.
        now apply Hout.
Qed.

Lemma exec_ids_snoc es e : exec_ids (es ++ [e]) = exec_ids es ++ exec_ids [e].
Proof. unfold exec_ids. now rewrite omap_app. Qed.

Lemma reachable_tidy es :
  NoDup (exec_ids es) -> tidy (exec_ids es) (run_events empty_world es).
Proof.
  induction es as [|e es IH] using rev_ind; intros Hnd.
  - split; [|split]; intros tid; intros; cbn in *;
      rewrite lookup_nil in *; discriminate.
  - rewrite exec_ids_snoc in *. apply NoDup_app in Hnd as (Hnd & Hdis & _).
    unfold run_events. rewrite foldl_snoc.
    apply (tidy_apply_event (exec_ids es)).
    + apply (reachable_is_allocated (run_events empty_world es)). now eexists.
    + now apply IH.
    + intros x Hx. apply elem_of_app. now left.
    + intros req id n n' ->. cbn. split.
      * intros Hx. apply (Hdis id Hx). now left.
      * apply elem_of_app. right. now left.
Qed.

(** X16.  When the ids drawn for the submissions do not repeat, the
    [stdout] of a job that is [finished] or timed out is always the join
    of all the lines in its [output_lines], and [result] answers with
    it: nothing is appended to such a job after its [stdout] has been
    recorded. *)
Theorem finished_stdout_is_output
        (es : list event) (job_id : str) (a : addr) (j : Job.t) :
  NoDup (exec_ids es) ->
  get_job (run_events empty_world es) job_id = Some (a, j) ->
  Job.status j = StFinished \/ Job.status j = StTimeout ->
  Job.stdout j = Some (join (Job.output_lines j))
  /\ exists body,
       result job_id (run_events empty_world es) = Ok body
       /\ rb_stdout body = join (Job.output_lines j)
       /\ rb_status body = status_str (Job.status j).
Proof.
  intros Hnd Hg Hs.
  set (w := run_events empty_world es) in *.
  assert (Hr : reachable w) by now eexists.
  assert (Ha : heap w !! a = Some j).
  { unfold get_job in Hg. destruct (jobs w !! job_id) as [b|]; [|discriminate].
    destruct (heap w !! b) eqn:E; [|discriminate]. now injection Hg as -> ->. }
  destruct (reachable_is_allocated w Hr) as (Hlen & _ & _).
  assert (Hlt : (a < length (tasks w))%nat)
    by (rewrite Hlen; now apply lookup_lt_Some in Ha).
  destruct (lookup_lt_is_Some_2 _ _ Hlt) as [t Ht].
  pose proof (reachable_heap_coherent w Hr a j Ha)
    as (_ & _ & _ & _ & _ & Hhas & _).
  destruct (reachable_tidy es Hnd) as (_ & _ & Hout).
  destruct (Hout a t j Ht Ha (Hhas Hs)) as [_ Hj].
  split; [exact Hj|]. unfold result. rewrite Hg. eexists. split; [reflexivity|].
  cbn. now rewrite Hj.
Qed.

Lemma finished_stdout_is_output_witness :
  exists body,
    result job1 w_done = Ok body
    /\ rb_stdout body = u"hello" ++ NL
    /\ rb_status body = u"finished".
Proof.
  assert (Hnd : NoDup (exec_ids
                  [Exec quick_request job1 0 0; Resume 0 (Spawned 1%nat) 0;
                   Resume 0 (Readline (u"hello" ++ NL)) 1;
                   Resume 0 (Readline []) 1;
                   Resume 0 (Exited (WEXITED 0)) 1]))
    by (repeat constructor; intros H; inversion H).
  assert (Hg : get_job w_done job1 = Some (0%nat, j_done)) by reflexivity.
  exact (proj2 (finished_stdout_is_output _ job1 0 j_done Hnd Hg
                  (or_introl eq_refl))).
Defined.

(** ** The first word of a blocked command *)

Lemma matches_IN cs pos s k :
  matches (IN cs) pos s k = true ->
  exists c t, s = c :: t /\ charset_match cs c = true /\ k (S pos) t = true.
Proof.
  cbn [matches]. destruct s as [|c t]; [discriminate|].
  destruct (charset_match cs c) eqn:E; [|discriminate]. eauto.
Qed.

Lemma matches_SEQ r1 r2 pos s k :
  matches (SEQ r1 r2) pos s k
  = matches r1 pos s (fun p s' => matches r2 p s' k).
Proof. reflexivity. Qed.

Lemma matches_OPTIONAL r pos s k :
  matches (OPTIONAL r) pos s k = matches r pos s k || k pos s.
Proof. reflexivity. Qed.

Lemma matches_literal l :
  forall pos s k,
    matches (literal l) pos s k = true ->
    exists w rest p, s = w ++ rest /\ spells w l /\ k p rest = true.
Proof.
  induction l as [|c l IH]; intros pos s k; cbn [literal].
  - intros H. exists [], s, pos. repeat split; [constructor|exact H].
  - rewrite matches_SEQ. intros H. apply (matches_IN (LITERAL_IGNORE c)) in H
      as (x & t & -> & Hx & H).
    apply IH in H as (w & rest & p & -> & Hw & Hk).
    exists (x :: w), rest, p. repeat split; [now constructor|exact Hk].
Qed.

Lemma matches_word l r pos s k :
  wants_space (fun p s' => matches r p s' k) ->
  matches (SEQ (literal l) r) pos s k = true ->
  exists w sp rest, s = w ++ sp :: rest /\ spells w l /\ isspace sp = true.
Proof.
  intros Hk H. rewrite matches_SEQ in H.
  apply matches_literal in H as (w & rest & p & -> & Hw & H).
  apply Hk in H as (sp & t & -> & Hsp). exists w, sp, t. now repeat split.
Qed.

Lemma wants_space_MIN_ONE k :
  wants_space (fun p s' => matches (MIN_ONE (IN CATEGORY_SPACE)) p s' k).
Proof.
  intros p s H. unfold MIN_ONE in H. rewrite matches_SEQ in H.
  apply (matches_IN CATEGORY_SPACE) in H as (c & t & -> & Hc & _). eauto.
Qed.

Lemma wants_space_SEQ_MIN_ONE r k :
  wants_space
    (fun p s' => matches (SEQ (MIN_ONE (IN CATEGORY_SPACE)) r) p s' k).
Proof.
  intros p s H. rewrite matches_SEQ in H.
  now apply (wants_space_MIN_ONE _ p s) in H.
Qed.

(** An anchored pattern is only found at the start. *)
Lemma search_anchored r s :
  search_from (SEQ AT_BEGINNING r) 0 s = matches r 0 s (fun _ _ => true).
Proof.
  assert (Hlater : forall t pos, search_from (SEQ AT_BEGINNING r) (S pos) t = false).
  { induction t as [|c t IH]; intros pos; cbn [search_from];
      rewrite matches_SEQ; cbn [matches Nat.eqb]; [reflexivity|apply IH]. }
  destruct s as [|c t]; cbn [search_from]; rewrite ?Hlater, orb_false_r;
    reflexivity.
Qed.

(** After an optional [sudo], the word [l]. *)
Lemma matches_sudo_then l r s k :
  matches (SEQ sudo_prefix
             (SEQ (literal l) (SEQ (MIN_ONE (IN CATEGORY_SPACE)) r)))
          0 s k = true ->
  exists w sp rest,
    s = w ++ sp :: rest /\ (spells w (u"sudo") \/ spells w l)
    /\ isspace sp = true.
Proof.
  unfold sudo_prefix. rewrite matches_SEQ, matches_OPTIONAL.
  intros [H|H]%orb_true_iff.
  - rewrite matches_SEQ in H.
    apply matches_literal in H as (w & rest & p & -> & Hw & H).
    apply (wants_space_MIN_ONE _ p rest) in H as (sp & t & -> & Hsp).
    exists w, sp, t. split; [reflexivity|]. split; [now left|exact Hsp].
  - apply matches_word in H as (w & sp & rest & -> & Hw & Hsp);
      [|apply wants_space_SEQ_MIN_ONE].
    exists w, sp, rest. split; [reflexivity|]. split; [now right|exact Hsp].
Qed.

Lemma spells_solid w l :
  spells w l -> l <> [] ->
  map fold_case w = l /\ solid_word w.
Proof.
  intros Hw Hne.
  assert (H : map fold_case w = l
              /\ forallb (fun c => negb (isspace c)) w = true).
  { clear Hne. induction Hw as [|x c w l Hx Hw IH]; [easy|].
    destruct IH as [IH1 IH2].
    cbn [map forallb]. rewrite IH1, IH2. cbn [charset_match] in Hx.
    unfold fold_case.
    destruct (lower_ascii x) as [lx|] eqn:El.
    - apply N.eqb_eq in Hx. subst lx. split; [reflexivity|].
      rewrite andb_true_r. apply negb_true_iff.
      destruct (isspace x) eqn:Es; [|reflexivity].
      pose proof (isspace_bounds _ Es) as Hb. unfold lower_ascii in El.
      destruct ((97 <=? x) && (x <=? 122))%N eqn:E1;
        [apply andb_true_iff in E1; rewrite !N.leb_le in E1; lia|].
      destruct ((65 <=? x) && (x <=? 90))%N eqn:E2;
        [apply andb_true_iff in E2; rewrite !N.leb_le in E2; lia|].
      destruct (N.eqb_spec x 304);
        [subst x; vm_compute in Es; discriminate|].
      destruct (N.eqb_spec x 8490);
        [subst x; vm_compute in Es; discriminate|discriminate].
    - apply existsb_exists in Hx as (y & Hy & Hxy). apply N.eqb_eq in Hxy.
      subst y. unfold ignorecase_fixes in Hy.
      destruct (N.eqb_spec c 105) as [->|_];
        [|destruct (N.eqb_spec c 115) as [->|_]]; cbn in Hy;
        try (destruct Hy as [<-|[]]); try contradiction;
        split; reflexivity. }
  destruct H as [H1 H2]. split; [exact H1|]. split; [|exact H2].
  intros ->. inversion Hw; subst. congruence.
Qed.

(** X17.  The gate can only reject a command whose first word is
    [sudo], [rm] or [ls], written in any case: every other command, for
    instance one that calls [rm] by its path or after another command,
    passes. *)
Theorem is_blocked_command_first_word (c : str) (reason : str) :
  is_blocked_command c = Some reason ->
  exists w ws,
    words c = w :: ws
    /\ (map fold_case w = u"sudo" \/ map fold_case w = u"rm"
        \/ map fold_case w = u"ls").
Proof.
  intros Hb.
  assert (Hm : exists w sp rest,
             normalize c = w ++ sp :: rest
             /\ (spells w (u"sudo") \/ spells w (u"rm") \/ spells w (u"ls"))
             /\ isspace sp = true).
  { apply first_blocking_Some in Hb as (i & p & Hi & Hp & _).
    unfold search in Hp.
    destruct i as [|[|i]]; try discriminate Hi;
      injection Hi as <-; cbn [code] in Hp; rewrite search_anchored in Hp.
    - apply (matches_sudo_then (u"rm")) in Hp
        as (w & sp & rest & E & Hw & Hsp).
      exists w, sp, rest. tauto.
    - apply (matches_sudo_then (u"ls")) in Hp
        as (w & sp & rest & E & Hw & Hsp).
      exists w, sp, rest. tauto. }
  destruct Hm as (w & sp & rest & E & Hw & Hsp).
  assert (Hs : solid_word w
               /\ (map fold_case w = u"sudo" \/ map fold_case w = u"rm"
                   \/ map fold_case w = u"ls")).
  { destruct Hw as [Hw|[Hw|Hw]];
      (apply spells_solid in Hw as [H1 H2];
       [split; [exact H2|tauto]|discriminate]). }
  destruct Hs as [Hsolid Hfold].
  exists w, (words rest). split; [|exact Hfold].
  rewrite <- (words_normalize c), E.
  rewrite words_word_app; [|exact Hsolid|right; eauto].
  cbn [words]. now rewrite Hsp.
Qed.

Lemma is_blocked_command_first_word_witness :
  exists w ws,
    words (u" Sudo  ls -R /") = w :: ws
    /\ (map fold_case w = u"sudo" \/ map fold_case w = u"rm"
        \/ map fold_case w = u"ls").
Proof.
  apply (is_blocked_command_first_word (u" Sudo  ls -R /")
           (u"Blocked: command matches dangerous pattern (^(sudo\s+)?ls\s+(-[a-z]*r[a-z]*))")).
  vm_compute. reflexivity.
Defined.

(** ** Cancelling a running job *)

(** X18.  Cancelling a running job answers ["Job cancelled"], sets the
    job's [status] to [cancelled] and [finished_at] to the time of the
    request and changes no other key; [kill()] is called on the recorded
    child if there is one, once.  The registry, the tasks and every
    other dictionary are as before: the job's task is not told. *)
Theorem cancel_job_running
        (job_id : str) (a : addr) (j : Job.t) (now : time) (w : world) :
  get_job w job_id = Some (a, j) ->
  Job.status j = StRunning ->
  let '(w', answer) := cancel_job job_id now w in
  answer = Ok (u"Job cancelled")
  /\ get_job w' job_id =
       Some (a, Job.mk StCancelled (Job.command j) (Job.cwd j)
                       (Job.created_at j) (Job.output_lines j)
                       (Job.process j) (Job.stdout j) (Job.stderr j)
                       (Job.returncode j) (Job.error j) (Some now))
  /\ signals w' = signals w ++ match Job.process j with
                               | Some p => [p]
                               | None => []
                               end
  /\ jobs w' = jobs w
  /\ tasks w' = tasks w
  /\ (forall b, b <> a -> heap w' !! b = heap w !! b).
Proof.
  intros Hg Hs. unfold cancel_job. rewrite Hg, Hs. cbn [status_eqb negb].
  set (w0 := match Job.process j with
             | Some p => with_signals (signals w ++ [p]) w
             | None => w
             end).
  assert (Hg0 : get_job w0 job_id = Some (a, j))
    by (subst w0; now destruct (Job.process j)).
  split; [reflexivity|]. split.
  { rewrite get_job_mutate, Hg0. now rewrite decide_True. }
  rewrite mutate_signals, mutate_jobs, mutate_tasks.
  split; [subst w0; destruct (Job.process j); cbn; now rewrite ?app_nil_r|].
  split; [subst w0; now destruct (Job.process j)|].
  split; [subst w0; now destruct (Job.process j)|].
  intros b Hb. rewrite mutate_lookup, decide_False by congruence.
  subst w0. now destruct (Job.process j).
Qed.

Lemma cancel_job_running_witness :
  let '(w', answer) := cancel_job job1 3 w_reading in
  answer = Ok (u"Job cancelled")
  /\ status_of w' job1 = Some StCancelled
  /\ signals w' = [1%nat]
  /\ tasks w' = tasks w_reading.
Proof.
  assert (Hg : get_job w_reading job1 = Some (0%nat, j_reading))
    by reflexivity.
  pose proof (cancel_job_running job1 0 j_reading 3 w_reading Hg eq_refl) as H.
  destruct (cancel_job job1 3 w_reading) as [w' answer].
  destruct H as (H1 & H2 & H3 & _ & H5 & _).
  split; [exact H1|]. split; [unfold status_of; now rewrite H2|].
  split; [exact H3|exact H5].
Defined.

(** ** Sweeps compose *)

Lemma expired_max n1 n2 j :
  expired (Z.max n1 n2) j = expired n1 j || expired n2 j.
Proof.
  unfold expired. destruct (is_terminal (Job.status j)); [|reflexivity].
  cbn [andb]. destruct (Job.finished_at j) as [f|]; cbn [default].
  - destruct (Z.gtb_spec (Z.max n1 n2 - f) JOB_TTL_SECONDS),
      (Z.gtb_spec (n1 - f) JOB_TTL_SECONDS),
      (Z.gtb_spec (n2 - f) JOB_TTL_SECONDS); cbn; try reflexivity; lia.
  - rewrite !Z.sub_diag. reflexivity.
Qed.

Lemma purge_lookup now w jid :
  jobs (purge_old_jobs now w) !! jid =
  match get_job w jid with
  | Some (a, j) => if expired now j then None else Some a
  | None => jobs w !! jid
  end.
Proof.
  cbn [purge_old_jobs jobs with_jobs]. rewrite lookup_foldl_delete.
  destruct (decide (jid ∈ expired_ids now w)) as [Hin|Hout].
  - apply elem_of_expired_ids in Hin as (a & j & Hg & He). now rewrite Hg, He.
  - destruct (get_job w jid) as [[a j]|] eqn:Hg; [|reflexivity].
    destruct (expired now j) eqn:He.
    + exfalso. apply Hout, elem_of_expired_ids. eauto.
    + unfold get_job in Hg. destruct (jobs w !! jid) as [b|]; [|discriminate].
      destruct (heap w !! b); [|discriminate]. now injection Hg as ->.
Qed.

(** X19.  Two sweeps in a row do what one sweep at the later of the two
    times does; in particular a second sweep at the same time removes
    nothing more. *)
Theorem purge_old_jobs_compose (n1 n2 : time) (w : world) :
  purge_old_jobs n2 (purge_old_jobs n1 w) = purge_old_jobs (Z.max n1 n2) w
  /\ purge_old_jobs n1 (purge_old_jobs n1 w) = purge_old_jobs n1 w.
Proof.
  assert (H : forall m1 m2,
             purge_old_jobs m2 (purge_old_jobs m1 w)
             = purge_old_jobs (Z.max m1 m2) w).
  { intros m1 m2.
    assert (Hj : jobs (purge_old_jobs m2 (purge_old_jobs m1 w))
                 = jobs (purge_old_jobs (Z.max m1 m2) w)).
    { apply map_eq. intros jid.
      rewrite (purge_lookup m2), get_job_purge, !purge_lookup.
      destruct (get_job w jid) as [[a j]|] eqn:Hg.
      - rewrite expired_max. destruct (expired m1 j); [reflexivity|].
        cbn [orb]. now destruct (expired m2 j).
      - reflexivity. }
    unfold purge_old_jobs at 1 3. unfold with_jobs.
    cbn [heap tasks signals purge_old_jobs with_jobs].
    f_equal. exact Hj. }
  split; [apply H|]. rewrite H. now rewrite Z.max_id.
Qed.

(** ** Who changes the registry *)

(** X20.  Only a submission adds to the registry and only a sweep takes
    from it: a cancellation and a step of a task leave the registry
    exactly as it is, and after any event every entry is one that was
    there before or the one of the job just submitted. *)
Theorem registry_frame (w : world) (e : event) :
  (forall job_id now, e = Cancel job_id now -> jobs (apply_event w e) = jobs w)
  /\ (forall tid ev now, e = Resume tid ev now ->
                         jobs (apply_event w e) = jobs w)
  /\ (forall id a,
        jobs (apply_event w e) !! id = Some a ->
        jobs w !! id = Some a
        \/ exists req now now',
             e = Exec req id now now'
             /\ is_blocked_command (command req) = None
             /\ a = length (heap w)).
Proof.
  split; [|split].
  - intros job_id now ->. cbn [apply_event]. unfold cancel_job.
    destruct (get_job w job_id) as [[a j]|]; [|reflexivity].
    destruct (negb _); cbn [fst]; [reflexivity|].
    rewrite mutate_jobs. now destruct (Job.process j).
  - intros tid ev now ->. apply run_step_frame.
  - intros id a H.
    destruct (jobs_apply_event w e id a H)
      as [Hold|(-> & req & now & now' & -> & Hb)]; [now left|].
    right. now exists req, now, now'.
Qed.

Lemma registry_frame_witness :
  jobs (apply_event w_reading (Cancel job1 3)) = jobs w_reading
  /\ jobs (apply_event w_reading (Resume 0 (Readline (u"a")) 3))
     = jobs w_reading.
Proof.
  destruct (registry_frame w_reading (Cancel job1 3)) as (Hc & _ & _).
  destruct (registry_frame w_reading (Resume 0 (Readline (u"a")) 3))
    as (_ & Hr & _).
  split; [exact (Hc job1 3 eq_refl)|exact (Hr 0%nat _ 3 eq_refl)].
Defined.
